(** * glrpt: the offset-QPSK post-processing of [src/demodulator/doqpsk.c]

    A shallow embedding of [Byte_at_Offset], [Find_Sync], [Resync_Stream],
    [De_Interleave], [Make_Isqrt_Table], [Isqrt] and [De_Diffcode], and the
    properties of them that the specification states.

    Conventions of the embedding.
    - A C [int] is a [Z]; none of the arithmetic below leaves the range of
      [int] for a buffer that fits in memory, so no wrap-around is written
      for it.  [uint8_t], [int8_t] and [uint32_t] values are [Z] with the
      conversions [u8], [s8] and [u32] written where the C code converts.
    - A buffer is a [list Z]; every access is bounds checked and yields a
      [res]: [Ok v], or [Fault r i] when index [i] lies outside region [r].
      For the private copy that [Resync_Stream] searches, what a read past
      its end yields is a parameter: a fault ([strict]), or the unknown
      bytes that lie there ([lenient past]).  The second makes every run
      return, so that the results can be stated for every buffer; the
      first shows where the copy is read out of bounds.
    - A pointer into a buffer is the function from an offset to the result
      of reading there ([ptr]); [p @+ i] is the C expression [&p[i]].
    - A [while] loop runs on fuel and yields [Fuel] if it is exhausted; the
      theorems show that the fuel handed out by the entry points is enough. *)

From Stdlib Require Import String ZArith List Bool Lia Floats.
Import ListNotations.
Local Open Scope Z_scope.

(** * Part I: the program *)

(** ** Fixed-width integers *)

Definition u8 (x : Z) : Z := x mod 256.
Definition s8 (x : Z) : Z := (x + 128) mod 256 - 128.
Definition u32 (x : Z) : Z := x mod 4294967296.

Definition is_s8 (x : Z) : Prop := -128 <= x <= 127.

(** ** Results of code that touches memory *)

(** The memory regions: the private copy [src_buf] and the caller's
    [raw_buf] of [Resync_Stream], the buffer [*resync] of [De_Interleave],
    [isqrt_table], and the symbol buffer [buff] of [De_Diffcode]. *)
Inductive region : Set := SrcBuf | RawBuf | ResyncBuf | IsqrtTable | SymBuf.

Inductive res (A : Type) : Type :=
| Ok (a : A)
| Fault (r : region) (idx : Z)
| Fuel.
Arguments Ok {A} a.
Arguments Fault {A} r idx.
Arguments Fuel {A}.

Definition bind {A B : Type} (m : res A) (k : A -> res B) : res B :=
  match m with
  | Ok a => k a
  | Fault r i => Fault r i
  | Fuel => Fuel
  end.

Notation "x <- m ;; k" := (bind m (fun x => k))
  (at level 61, m at next level, right associativity).
Notation "' p <- m ;; k" := (bind m (fun x => let 'p := x in k))
  (at level 61, p pattern, m at next level, right associativity).

(** ** Buffers *)

Definition in_bounds (buf : list Z) (i : Z) : bool :=
  (0 <=? i) && (i <? Z.of_nat (length buf)).

Definition load (r : region) (buf : list Z) (i : Z) : res Z :=
  if in_bounds buf i then Ok (nth (Z.to_nat i) buf 0) else Fault r i.

Fixpoint upd (buf : list Z) (n : nat) (v : Z) : list Z :=
  match buf, n with
  | [], _ => []
  | _ :: t, O => v :: t
  | h :: t, S n' => h :: upd t n' v
  end.

Definition store (r : region) (buf : list Z) (i : Z) (v : Z) : res (list Z) :=
  if in_bounds buf i then Ok (upd buf (Z.to_nat i) v) else Fault r i.

Definition ptr : Type := Z -> res Z.

Definition ptr_add (p : ptr) (i : Z) : ptr := fun k => p (i + k).
Infix "@+" := ptr_add (at level 40, left associativity).

(** A pointer every offset of which can be read: [total m] reads [m i]. *)
Definition total (m : Z -> Z) : ptr := fun i => Ok (m i).

(** ** The integer square root table *)

Module SqrtTable.

(** [(double)idx] for an unsigned 16-bit [idx]. *)
Definition double_of_uint (x : Z) : float := PrimFloat.of_uint63 (Uint63.of_Z x).

(** The conversion of a finite [double] to an integer type truncates toward
    zero. *)
Definition trunc_double (f : float) : Z :=
  match Prim2SF f with
  | S754_finite s m e =>
      let mag := match e with
                 | Z0 => Zpos m
                 | Zpos p => Zpos m * 2 ^ Zpos p
                 | Zneg p => Zpos m / 2 ^ Zpos p
                 end in
      if s then - mag else mag
  | _ => 0
  end.

(** One entry: [(uint8_t)( sqrt( (double)idx ) )]. *)
Definition entry (idx : Z) : Z :=
  u8 (trunc_double (PrimFloat.sqrt (double_of_uint idx))).

(** [Make_Isqrt_Table]: the 16385 entries [isqrt_table[0 .. 16384]]. *)
Definition Make_Isqrt_Table : list Z :=
  map (fun n => entry (Z.of_nat n)) (seq 0 (Z.to_nat 16385)).

(** [Isqrt]: the table is read at [a] or at [-a]; the entry is converted to
    [int8_t], negated as an [int] in the second branch, and the returned
    value is an [int8_t] again. *)
Definition Isqrt (isqrt_table : list Z) (a : Z) : res Z :=
  if a >=? 0 then
    v <- load IsqrtTable isqrt_table a ;;
    Ok (s8 v)
  else
    v <- load IsqrtTable isqrt_table (- a) ;;
    Ok (s8 (- s8 v)).

(** The truncated, sign-preserving integer square root the table stands for. *)
Definition signed_sqrt (a : Z) : Z :=
  if a >=? 0 then Z.sqrt a else - Z.sqrt (- a).

End SqrtTable.

(** ** The sync locator *)

Module Sync.

(** [Byte_at_Offset]: the loop [for (uint8_t i = 0; i < 8; i++)], run on the
    count [n] of iterations left. *)
Fixpoint Byte_loop (data : ptr) (n : nat) (i : Z) (result : Z) : res Z :=
  match n with
  | O => Ok result
  | S n' =>
      d <- data i ;;
      let test := if d <? 128 then 1 else 0 in
      Byte_loop data n' (u8 (i + 1)) (u8 (Z.lor result (Z.shiftl test i)))
  end.

Definition Byte_at_Offset (data : ptr) : res Z := Byte_loop data 8 0 0.

(** The loop [for (int j = 1; j <= depth; j++)] of [Find_Sync], with [n]
    iterations left: [false] at the first mismatch ([break]), [true] when
    every candidate equalled [sync]. *)
Fixpoint Find_Sync_ahead (data : ptr) (step i sync : Z) (n : nat) (j : Z)
  : res bool :=
  match n with
  | O => Ok true
  | S n' =>
      test <- Byte_at_Offset (data @+ (i + j * step)) ;;
      if negb (sync =? test) then Ok false
      else Find_Sync_ahead data step i sync n' (j + 1)
  end.

(** The loop [for (int i = 0; i < limit; i++)] of [Find_Sync], with [n]
    iterations left.  The result is [(result, *offset, *sync)]. *)
Fixpoint Find_Sync_scan (data : ptr) (step depth : Z) (n : nat) (i sync : Z)
  : res (bool * Z * Z) :=
  match n with
  | O => Ok (false, 0, sync)
  | S n' =>
      sync' <- Byte_at_Offset (data @+ i) ;;
      result <- Find_Sync_ahead data step i sync' (Z.to_nat depth) 1 ;;
      if result then Ok (true, i, sync')
      else Find_Sync_scan data step depth n' (i + 1) sync'
  end.

(** [Find_Sync]; [sync] is the value [*sync] holds on entry. *)
Definition Find_Sync (data : ptr) (block_siz step depth sync : Z)
  : res (bool * Z * Z) :=
  let limit := block_siz - step * depth in
  Find_Sync_scan data step depth (Z.to_nat limit) 0 sync.

End Sync.

(** ** The stream resynchronizer and the de-interleaver *)

Module Resync.
Import Sync.

Definition INTLV_BRANCHES : Z := 36.
Definition INTLV_BASE_LEN : Z := 73728.
Definition INTLV_DATA_LEN : Z := 72.
Definition INTLV_SYNCDATA : Z := 80.
Definition SYNCD_DEPTH : Z := 4.
Definition SYNCD_BUF_MARGIN : Z := 320.
Definition SYNCD_BLOCK_SIZ : Z := 400.
Definition SYNCD_BUF_STEP : Z := 240.

(** What a read outside the private copy [src_buf] yields: a [Fault] under
    [strict], and under [lenient past] the byte [past i] that happens to lie
    at index [i] from the start of the copy. *)
Definition strict : ptr := fun i => Fault SrcBuf i.
Definition lenient (past : Z -> Z) : ptr := total past.

(** [memcpy(&dst[d], src, n)], one byte at a time; the destination is the
    caller's buffer [raw_buf]. *)
Fixpoint memcpy (dst : list Z) (d : Z) (src : ptr) (n : nat) (k : Z)
  : res (list Z) :=
  match n with
  | O => Ok dst
  | S n' =>
      v <- src k ;;
      dst' <- store RawBuf dst (d + k) v ;;
      memcpy dst' d src n' (k + 1)
  end.

Section WithOverread.

Variable overread : ptr.

(** A read of [src_buf[i]]. *)
Definition src_at (src_buf : list Z) : ptr :=
  fun i => if in_bounds src_buf i then Ok (nth (Z.to_nat i) src_buf 0)
           else overread i.

(** The look-ahead loop [for (int i = 0; i < 128; i++)]: the value of [ok]. *)
Fixpoint look_ahead (src_buf : list Z) (posn limit2 sync : Z) (n : nat) (i : Z)
  : res bool :=
  match n with
  | O => Ok false
  | S n' =>
      let tmp := posn + i * INTLV_SYNCDATA in
      if tmp <? limit2 then
        test <- Byte_at_Offset (src_at src_buf @+ tmp) ;;
        if sync =? test then Ok true
        else look_ahead src_buf posn limit2 sync n' (i + 1)
      else look_ahead src_buf posn limit2 sync n' (i + 1)
  end.

(** The loop [while (posn < limit2)]; the state is
    [(raw_buf, *resync_siz, posn)]. *)
Fixpoint track (fuel : nat) (src_buf : list Z) (limit2 sync : Z)
  (raw_buf : list Z) (resync_siz posn : Z) : res (list Z * Z * Z) :=
  match fuel with
  | O => Fuel
  | S fuel' =>
      if posn <? limit2 then
        ok <- look_ahead src_buf posn limit2 sync 128 0 ;;
        if negb ok then Ok (raw_buf, resync_siz, posn)
        else
          raw_buf' <- memcpy raw_buf resync_siz
                        (src_at src_buf @+ (posn + 8))
                        (Z.to_nat INTLV_DATA_LEN) 0 ;;
          track fuel' src_buf limit2 sync
            raw_buf' (resync_siz + INTLV_DATA_LEN) (posn + INTLV_SYNCDATA)
      else Ok (raw_buf, resync_siz, posn)
  end.

(** The loop [while (posn < limit1)]; [inner] is the fuel handed to each run
    of the tracking loop. *)
Fixpoint acquire (fuel inner : nat) (src_buf : list Z) (limit1 limit2 : Z)
  (raw_buf : list Z) (resync_siz posn sync : Z) : res (list Z * Z) :=
  match fuel with
  | O => Fuel
  | S fuel' =>
      if posn <? limit1 then
        '(found, offset, sync') <-
          Find_Sync (src_at src_buf @+ posn)
            SYNCD_BLOCK_SIZ INTLV_SYNCDATA SYNCD_DEPTH sync ;;
        if negb found then
          acquire fuel' inner src_buf limit1 limit2
            raw_buf resync_siz (posn + SYNCD_BUF_STEP) sync'
        else
          '(raw_buf', resync_siz', posn') <-
            track inner src_buf limit2 sync' raw_buf resync_siz (posn + offset) ;;
          acquire fuel' inner src_buf limit1 limit2
            raw_buf' resync_siz' posn' sync'
      else Ok (raw_buf, resync_siz)
  end.

(** [Resync_Stream(raw_buf, raw_siz, &resync_siz)] for a buffer of [raw_siz]
    symbols: the buffer as it is left, and [*resync_siz]. *)
Definition Resync_Stream (raw_buf : list Z) : res (list Z * Z) :=
  let raw_siz := Z.of_nat (length raw_buf) in
  let limit1 := raw_siz - SYNCD_BUF_MARGIN in
  let limit2 := raw_siz - INTLV_SYNCDATA in
  let src_buf := raw_buf in
  acquire (S (length raw_buf)) (S (length raw_buf)) src_buf limit1 limit2
    raw_buf 0 0 0.

(** The de-interleaving loop of [De_Interleave], with [n] iterations left;
    [written] lists the indices of [*resync] stored to, latest first. *)
Fixpoint deinterleave (raw : list Z) (resync_siz : Z) (n : nat)
  (resync_buf_idx : Z) (resync : list Z) (written : list Z)
  : res (list Z * list Z) :=
  match n with
  | O => Ok (resync, written)
  | S n' =>
      let raw_buf_idx :=
        resync_buf_idx + Z.rem resync_buf_idx INTLV_BRANCHES * INTLV_BASE_LEN in
      if raw_buf_idx <? resync_siz then
        v <- load RawBuf raw raw_buf_idx ;;
        resync' <- store ResyncBuf resync resync_buf_idx v ;;
        deinterleave raw resync_siz n' (resync_buf_idx + 1)
          resync' (resync_buf_idx :: written)
      else
        deinterleave raw resync_siz n' (resync_buf_idx + 1) resync written
  end.

(** What [De_Interleave] leaves behind: the raw buffer, the buffer [*resync]
    points to, [*resync_siz], the messages shown, and the indices of
    [*resync] that were stored to. *)
Record outcome : Type := {
  out_raw : list Z;
  out_resync : list Z;
  out_resync_siz : Z;
  out_messages : list (String.string * String.string);
  out_written : list Z
}.

(** [mem_alloc] is not part of this file: [mem_alloc n] stands for the
    content of the [n] bytes it hands out. *)
Variable mem_alloc : Z -> list Z.

(** [De_Interleave(raw, raw_siz, &resync, &resync_siz)]; [resync0] is the
    buffer [*resync] points to on entry. *)
Definition De_Interleave (raw : list Z) (resync0 : list Z) : res outcome :=
  let raw_siz := Z.of_nat (length raw) in
  '(raw', resync_siz) <- Resync_Stream raw ;;
  let '(resync, messages) :=
    if negb (resync_siz =? 0) && (resync_siz <? raw_siz)
    then (mem_alloc resync_siz, [])
    else (resync0, [("Resync_Stream() failed"%string, "red"%string)]) in
  '(resync', written) <-
    deinterleave raw' resync_siz (Z.to_nat resync_siz) 0 resync [] ;;
  Ok {| out_raw := raw'; out_resync := resync'; out_resync_siz := resync_siz;
        out_messages := messages; out_written := written |}.

End WithOverread.

End Resync.

(** ** The differential decoder *)

Module Diffcode.
Import SqrtTable.

(** The loop [for (idx = 2; idx <= length; idx += 2)] over [buff], which
    starts [base] symbols into the buffer [buf]. *)
Fixpoint decode_loop (isqrt_table : list Z) (fuel : nat) (buf : list Z)
  (base length idx tmp1 tmp2 : Z) : res (list Z * Z * Z) :=
  match fuel with
  | O => Fuel
  | S fuel' =>
      if idx <=? length then
        x <- load SymBuf buf (base + idx) ;;
        y <- load SymBuf buf (base + u32 (idx + 1)) ;;
        b0 <- load SymBuf buf (base + idx) ;;
        r0 <- Isqrt isqrt_table (b0 * tmp1) ;;
        buf1 <- store SymBuf buf (base + idx) r0 ;;
        b1 <- load SymBuf buf1 (base + u32 (idx + 1)) ;;
        r1 <- Isqrt isqrt_table (- b1 * tmp2) ;;
        buf2 <- store SymBuf buf1 (base + u32 (idx + 1)) r1 ;;
        decode_loop isqrt_table fuel' buf2 base length (u32 (idx + 2)) x y
      else Ok (buf, tmp1, tmp2)
  end.

(** [De_Diffcode(buff, length)] with [buff = &buf[base]]; the statics
    [prev_i] and [prev_q] are passed in and returned. *)
Definition De_Diffcode (isqrt_table : list Z) (buf : list Z) (base length : Z)
  (prev : Z * Z) : res (list Z * (Z * Z)) :=
  let '(prev_i, prev_q) := prev in
  tmp1 <- load SymBuf buf base ;;
  tmp2 <- load SymBuf buf (base + 1) ;;
  b0 <- load SymBuf buf base ;;
  r0 <- Isqrt isqrt_table (b0 * prev_i) ;;
  buf1 <- store SymBuf buf base r0 ;;
  b1 <- load SymBuf buf1 (base + 1) ;;
  r1 <- Isqrt isqrt_table (- b1 * prev_q) ;;
  buf2 <- store SymBuf buf1 (base + 1) r1 ;;
  let length := u32 (length - 2) in
  '(buf3, tmp1, tmp2) <-
    decode_loop isqrt_table (S (Z.to_nat length)) buf2 base length 2 tmp1 tmp2 ;;
  Ok (buf3, (tmp1, tmp2)).

End Diffcode.

(** * Part II: the vocabulary of the specification *)

(** [reads p m]: every read through [p] succeeds, with the values [m]. *)
Definition reads (p : ptr) (m : Z -> Z) : Prop := forall i, p i = Ok (m i).

(** The bytes a read through [p] yields, 0 where it yields none. *)
Definition past_of (p : ptr) : Z -> Z :=
  fun i => match p i with Ok v => v | _ => 0 end.

(** [ptr_le p q]: whatever [p] reads, [q] reads too. *)
Definition ptr_le (p q : ptr) : Prop := forall i v, p i = Ok v -> q i = Ok v.

Definition region_eqb (a b : region) : bool :=
  match a, b with
  | SrcBuf, SrcBuf | RawBuf, RawBuf | ResyncBuf, ResyncBuf
  | IsqrtTable, IsqrtTable | SymBuf, SymBuf => true
  | _, _ => false
  end.

(** Whether a run stopped on an access outside region [rg]. *)
Definition faults_in {A : Type} (rg : region) (r : res A) : bool :=
  match r with
  | Fault r' _ => region_eqb r' rg
  | _ => false
  end.

(** No access outside the square root table. *)
Definition table_safe {A : Type} (r : res A) : Prop :=
  faults_in IsqrtTable r = false.

Module SyncSpec.

(** Hard decision on one soft symbol. *)
Definition hard_bit (v : Z) : Z := if v <? 128 then 1 else 0.

(** The hard-decision byte of the 8 symbols at [off], first symbol in the
    least significant bit. *)
Definition hard_byte (m : Z -> Z) (off : Z) : Z :=
  hard_bit (m (off + 0)) + 2 * hard_bit (m (off + 1))
  + 4 * hard_bit (m (off + 2)) + 8 * hard_bit (m (off + 3))
  + 16 * hard_bit (m (off + 4)) + 32 * hard_bit (m (off + 5))
  + 64 * hard_bit (m (off + 6)) + 128 * hard_bit (m (off + 7)).

(** The byte at [i] recurs at [i + k * step] for [k = 1 .. depth]. *)
Definition train (m : Z -> Z) (step depth i : Z) : Prop :=
  forall k, 1 <= k <= depth -> hard_byte m (i + k * step) = hard_byte m i.

End SyncSpec.

Module ResyncSpec.

(** The memory as a lenient read of the private copy sees it: the buffer,
    and [past i] at every index [i] outside it. *)
Definition view (buf : list Z) (past : Z -> Z) : Z -> Z :=
  fun i => if in_bounds buf i then nth (Z.to_nat i) buf 0 else past i.

(** What the loops of [Resync_Stream] keep true of
    [(raw_buf, *resync_siz, posn)] on a buffer of [L] symbols: 72 symbols
    are written for every 80 read. *)
Definition resync_inv (L : Z) (raw_buf : list Z) (resync_siz posn : Z) : Prop :=
  Z.of_nat (length raw_buf) = L /\ 0 <= resync_siz /\ (72 | resync_siz) /\
  10 * resync_siz <= 9 * posn /\ (posn = 0 \/ posn < L).

(** The source index of destination [i] in the de-interleaver. *)
Definition source_index (i : Z) : Z := i + (i mod 36) * 73728.

(** The message [De_Interleave] shows on failure. *)
Definition failure_message : list (string * string) :=
  [("Resync_Stream() failed"%string, "red"%string)].

End ResyncSpec.

Module DiffcodeSpec.

(** What [Isqrt] returns for an argument within the table. *)
Definition isq (a : Z) : Z :=
  if a >=? 0 then s8 (Z.sqrt a) else s8 (- s8 (Z.sqrt (- a))).

(** The decoded symbols, pair by pair, from the raw symbols. *)
Fixpoint decode_pairs (prev_i prev_q : Z) (l : list Z) : list Z :=
  match l with
  | a :: b :: rest =>
      isq (a * prev_i) :: isq (- b * prev_q) :: decode_pairs a b rest
  | _ => l
  end.

(** The last raw pair, or the carried pair if there is none. *)
Fixpoint last_pair (prev_i prev_q : Z) (l : list Z) : Z * Z :=
  match l with
  | a :: b :: rest => last_pair a b rest
  | _ => (prev_i, prev_q)
  end.

End DiffcodeSpec.

(** ** Sample inputs *)

Module Samples.

(** The sync word 00100111 as soft symbols, least significant bit first. *)
Definition sync_word : list Z := [0; 0; 0; 255; 255; 0; 255; 255].

(** One frame period: the sync word and 72 data symbols [d]. *)
Definition frame (d : Z) : list Z := sync_word ++ repeat d 72.

Fixpoint frames (n : nat) (d : Z) : list Z :=
  match n with
  | O => []
  | S n' => frame d ++ frames n' (d + 1)
  end.

(** The raw buffer as [Resync_Stream] leaves it on seven frames. *)
Definition frames_resynced : list Z :=
  match Resync.Resync_Stream Resync.strict (frames 7 1) with
  | Ok (raw_buf', _) => raw_buf'
  | _ => []
  end.

(** 500 symbols in which no hard-decision byte recurs 80 symbols later. *)
Definition noise : list Z :=
  map (fun n => if (Z.of_nat n mod 3 =? 0) then 0 else 255) (seq 0 500).

(** Three pairs of 8-bit signed soft symbols. *)
Definition sample : list Z := [5; -7; -128; -128; -128; 127].

End Samples.

(** ** The vocabulary of the further properties *)

Module ResyncMoreSpec.

(** [blocks src cur pos q n posn]: the first [n = 72 * q] symbols of [cur]
    are [q] blocks of 72 symbols; block [b] is [src[pos b + 8 .. pos b + 80)];
    the positions are at least 80 apart, in order, and end by [posn]; from
    [n] on [cur] is [src]. *)
Definition blocks (src cur : list Z) (pos : Z -> Z) (q n posn : Z) : Prop :=
  n = 72 * q /\ 0 <= q /\ length cur = length src /\
  (forall b, 0 <= b < q ->
     0 <= pos b /\ pos b + 80 <= posn /\
     pos b + 80 < Z.of_nat (length src) /\
     (forall b', b < b' < q -> pos b + 80 <= pos b') /\
     forall j, 0 <= j < 72 ->
       nth (Z.to_nat (72 * b + j)) cur 0
       = nth (Z.to_nat (pos b + 8 + j)) src 0) /\
  (forall i, n <= i -> nth (Z.to_nat i) cur 0 = nth (Z.to_nat i) src 0).

(** [same_or_overread L a b]: run [a] returned what run [b] returned, or
    stopped on a read of the private copy outside [[0, L)]. *)
Definition same_or_overread {A : Type} (L : Z) (a b : res A) : Prop :=
  a = b \/ exists i, a = Fault SrcBuf i /\ ~ 0 <= i < L.

End ResyncMoreSpec.

Module MoreSamples.

(** Eight symbols below 128 followed by symbols above it for ever. *)
Definition one_burst : Z -> Z := fun i => if i <? 8 then 0 else 255.

End MoreSamples.

(** * Part III: proofs *)

(** ** Proofs: buffers *)

Lemma in_bounds_iff buf i :
  in_bounds buf i = true <-> 0 <= i < Z.of_nat (length buf).
Proof. unfold in_bounds. rewrite andb_true_iff, Z.leb_le, Z.ltb_lt. tauto. Qed.

Lemma load_ok r buf i :
  0 <= i < Z.of_nat (length buf) -> load r buf i = Ok (nth (Z.to_nat i) buf 0).
Proof. intros H. unfold load. apply in_bounds_iff in H. now rewrite H. Qed.

Lemma load_fault r buf i :
  ~ 0 <= i < Z.of_nat (length buf) -> load r buf i = Fault r i.
Proof.
  intros H. unfold load. destruct (in_bounds buf i) eqn:E; [|reflexivity].
  apply in_bounds_iff in E. contradiction.
Qed.

(** ** Proofs: the square root table *)

Module SqrtTableFacts.
Import SqrtTable.

Lemma entries_checked :
  forallb (fun n => entry (Z.of_nat n) =? Z.sqrt (Z.of_nat n))
          (seq 0 (Z.to_nat 16385)) = true.
Proof. vm_compute. reflexivity. Qed.

Lemma table_length : Z.of_nat (length Make_Isqrt_Table) = 16385.
Proof. unfold Make_Isqrt_Table. rewrite length_map, length_seq. lia. Qed.

Lemma nth_map_seq (f : nat -> Z) n k d :
  (k < n)%nat -> nth k (map f (seq 0 n)) d = f k.
Proof.
  intros Hlt.
  rewrite nth_indep with (d' := f O) by (rewrite length_map, length_seq; exact Hlt).
  rewrite map_nth, seq_nth by exact Hlt. reflexivity.
Qed.

Lemma table_nth i :
  0 <= i <= 16384 -> nth (Z.to_nat i) Make_Isqrt_Table 0 = Z.sqrt i.
Proof.
  intros Hi. unfold Make_Isqrt_Table.
  rewrite nth_map_seq by lia. rewrite Z2Nat.id by lia.
  pose proof entries_checked as H. rewrite forallb_forall in H.
  specialize (H (Z.to_nat i)). rewrite Z2Nat.id in H by lia.
  apply Z.eqb_eq, H, in_seq. lia.
Qed.

Lemma table_load i :
  0 <= i <= 16384 -> load IsqrtTable Make_Isqrt_Table i = Ok (Z.sqrt i).
Proof.
  intros Hi. rewrite load_ok by (rewrite table_length; lia).
  now rewrite table_nth.
Qed.

(** The table is read out of bounds exactly at the indices outside
    [0 .. 16384]. *)
Lemma table_load_fault i :
  ~ 0 <= i <= 16384 -> load IsqrtTable Make_Isqrt_Table i = Fault IsqrtTable i.
Proof. intros Hi. apply load_fault. rewrite table_length. lia. Qed.

Lemma sqrt_le_128 i : 0 <= i <= 16384 -> 0 <= Z.sqrt i <= 128.
Proof.
  intros Hi. split; [apply Z.sqrt_nonneg|].
  change 128 with (Z.sqrt 16384). apply Z.sqrt_le_mono. lia.
Qed.

Lemma sqrt_lt_128 i : 0 <= i < 16384 -> 0 <= Z.sqrt i < 128.
Proof.
  intros Hi. split; [apply Z.sqrt_nonneg|].
  apply Z.sqrt_lt_square; lia.
Qed.

Lemma s8_range x : is_s8 (s8 x).
Proof. unfold is_s8, s8. pose proof (Z.mod_pos_bound (x + 128) 256). lia. Qed.

Lemma s8_id x : is_s8 x -> s8 x = x.
Proof. unfold is_s8, s8. intros H. rewrite Z.mod_small; lia. Qed.

(** Away from [16384] the code returns the signed square root. *)
Lemma Isqrt_small a :
  -16384 <= a < 16384 -> Isqrt Make_Isqrt_Table a = Ok (signed_sqrt a).
Proof.
  intros Ha. unfold Isqrt, signed_sqrt.
  destruct (a >=? 0) eqn:E.
  - apply Z.geb_le in E. rewrite table_load by lia. cbn [bind].
    pose proof (sqrt_lt_128 a ltac:(lia)).
    rewrite s8_id by (unfold is_s8; lia). reflexivity.
  - assert (a < 0) by (destruct (Z.geb_spec a 0); [discriminate | lia]).
    rewrite table_load by lia. cbn [bind].
    destruct (Z.eq_dec a (-16384)) as [-> | Hne].
    + reflexivity.
    + pose proof (sqrt_lt_128 (- a) ltac:(lia)).
      rewrite (s8_id (Z.sqrt (- a))) by (unfold is_s8; lia).
      rewrite s8_id by (unfold is_s8; lia). reflexivity.
Qed.

(** C3, at the failing input: the entry for 16384 is 128, which does not
    fit the [int8_t] that [Isqrt] returns, so [Isqrt(16384)] is -128. *)
Theorem Isqrt_16384 :
  SqrtTable.Isqrt SqrtTable.Make_Isqrt_Table 16384 = Ok (-128)
  /\ SqrtTable.signed_sqrt 16384 = 128.
Proof.
  split; [|reflexivity].
  unfold Isqrt. cbn [Z.geb Z.compare]. rewrite table_load by lia. reflexivity.
Qed.

End SqrtTableFacts.

Module SyncFacts.
Import Sync SyncSpec.

Lemma reads_total m : reads (total m) m.
Proof. intros i. reflexivity. Qed.

Lemma reads_add p m a : reads p m -> reads (p @+ a) (fun k => m (a + k)).
Proof. intros H k. unfold ptr_add. apply H. Qed.

Lemma hard_byte_shift m a : hard_byte (fun k => m (a + k)) 0 = hard_byte m a.
Proof. reflexivity. Qed.

Lemma Byte_at_Offset_reads p m :
  reads p m -> Byte_at_Offset p = Ok (hard_byte m 0).
Proof.
  intros H. unfold Byte_at_Offset, hard_byte, hard_bit.
  cbn [Byte_loop]. rewrite (H 0). cbn [bind].
  change (u8 (0 + 1)) with 1. rewrite (H 1). cbn [bind].
  change (u8 (1 + 1)) with 2. rewrite (H 2). cbn [bind].
  change (u8 (2 + 1)) with 3. rewrite (H 3). cbn [bind].
  change (u8 (3 + 1)) with 4. rewrite (H 4). cbn [bind].
  change (u8 (4 + 1)) with 5. rewrite (H 5). cbn [bind].
  change (u8 (5 + 1)) with 6. rewrite (H 6). cbn [bind].
  change (u8 (6 + 1)) with 7. rewrite (H 7). cbn [bind].
  change (0 + 0) with 0. change (0 + 1) with 1. change (0 + 2) with 2.
  change (0 + 3) with 3. change (0 + 4) with 4. change (0 + 5) with 5.
  change (0 + 6) with 6. change (0 + 7) with 7.
  destruct (m 0 <? 128), (m 1 <? 128), (m 2 <? 128), (m 3 <? 128),
    (m 4 <? 128), (m 5 <? 128), (m 6 <? 128), (m 7 <? 128); reflexivity.
Qed.

Lemma Byte_at_Offset_at p m a :
  reads p m -> Byte_at_Offset (p @+ a) = Ok (hard_byte m a).
Proof.
  intros H. rewrite (Byte_at_Offset_reads _ _ (reads_add _ _ a H)).
  reflexivity.
Qed.

Lemma hard_byte_range m a : 0 <= hard_byte m a < 256.
Proof.
  unfold hard_byte, hard_bit.
  repeat match goal with |- context [if ?c then _ else _] => destruct c end; lia.
Qed.

(** Least significant bit first: bit [k] of the byte is the decision on the
    symbol at [a + k]. *)
Lemma hard_byte_testbit m a k :
  0 <= k < 8 -> Z.testbit (hard_byte m a) k = (m (a + k) <? 128).
Proof.
  intros Hk.
  assert (Hc : k = 0 \/ k = 1 \/ k = 2 \/ k = 3 \/ k = 4 \/ k = 5 \/ k = 6 \/ k = 7)
    by lia.
  unfold hard_byte, hard_bit.
  destruct (m (a + 0) <? 128) eqn:E0, (m (a + 1) <? 128) eqn:E1,
    (m (a + 2) <? 128) eqn:E2, (m (a + 3) <? 128) eqn:E3,
    (m (a + 4) <? 128) eqn:E4, (m (a + 5) <? 128) eqn:E5,
    (m (a + 6) <? 128) eqn:E6, (m (a + 7) <? 128) eqn:E7;
  repeat (destruct Hc as [-> | Hc]); try subst k;
  first [ rewrite E0 | rewrite E1 | rewrite E2 | rewrite E3
        | rewrite E4 | rewrite E5 | rewrite E6 | rewrite E7 ]; reflexivity.
Qed.

(** The look-forward loop: [true] exactly when the candidates at
    [i + k * step], [j <= k < j + n], all equal [sync]. *)
Lemma Find_Sync_ahead_reads p m step i sync n : forall j,
  reads p m ->
  exists b, Find_Sync_ahead p step i sync n j = Ok b /\
    (b = true <->
     forall k, j <= k < j + Z.of_nat n -> hard_byte m (i + k * step) = sync).
Proof.
  induction n as [|n IH]; intros j H.
  - exists true. split; [reflexivity|]. split; [intros _ k Hk; lia | reflexivity].
  - cbn [Find_Sync_ahead]. rewrite (Byte_at_Offset_at _ _ _ H). cbn [bind].
    destruct (Z.eqb_spec sync (hard_byte m (i + j * step))) as [E | E]; cbn [negb].
    + destruct (IH (j + 1) H) as (b & Hb & Hiff). exists b. split; [exact Hb|].
      rewrite Hiff. split; intros Hall k Hk.
      * destruct (Z.eq_dec k j) as [-> | Hne]; [now symmetry | apply Hall; lia].
      * apply Hall. lia.
    + exists false. split; [reflexivity|]. split; [discriminate|].
      intros Hall. exfalso. apply E. symmetry. apply Hall. lia.
Qed.

Lemma train_iff m step depth i :
  train m step depth i <->
  forall k, 1 <= k < 1 + Z.of_nat (Z.to_nat depth) ->
            hard_byte m (i + k * step) = hard_byte m i.
Proof. unfold train. split; intros H k Hk; apply H; lia. Qed.

(** The scan: it stops at the first offset that starts a train. *)
Lemma Find_Sync_scan_reads p m step depth n : forall i sync0,
  reads p m ->
  exists result offset sync,
    Find_Sync_scan p step depth n i sync0 = Ok (result, offset, sync) /\
    (result = true ->
       i <= offset < i + Z.of_nat n /\ train m step depth offset /\
       sync = hard_byte m offset /\
       forall i', i <= i' < offset -> ~ train m step depth i') /\
    (result = false ->
       offset = 0 /\ forall i', i <= i' < i + Z.of_nat n -> ~ train m step depth i').
Proof.
  induction n as [|n IH]; intros i sync0 H.
  - exists false, 0, sync0. split; [reflexivity|]. split; [discriminate|].
    intros _. split; [reflexivity | intros i' Hi'; lia].
  - cbn [Find_Sync_scan]. rewrite (Byte_at_Offset_at _ _ _ H). cbn [bind].
    destruct (Find_Sync_ahead_reads p m step i (hard_byte m i)
                (Z.to_nat depth) 1 H) as (b & Hb & Hiff).
    rewrite Hb. cbn [bind]. rewrite <- train_iff in Hiff.
    destruct b.
    + exists true, i, (hard_byte m i). split; [reflexivity|].
      split; [|discriminate]. intros _.
      split; [lia|]. split; [now apply Hiff|]. split; [reflexivity|].
      intros i' Hi'; lia.
    + assert (Hno : ~ train m step depth i)
        by (intros Ht; apply Hiff in Ht; discriminate).
      destruct (IH (i + 1) (hard_byte m i) H)
        as (r & off & s & Hr & Ht & Hf).
      exists r, off, s. split; [exact Hr|]. split.
      * intros ->. destruct (Ht eq_refl) as (Hoff & Htr & Hs & Hmin).
        split; [lia|]. split; [exact Htr|]. split; [exact Hs|].
        intros i' Hi'. destruct (Z.eq_dec i' i) as [-> | Hne];
          [exact Hno | apply Hmin; lia].
      * intros ->. destruct (Hf eq_refl) as (Hoff & Hall).
        split; [exact Hoff|]. intros i' Hi'.
        destruct (Z.eq_dec i' i) as [-> | Hne]; [exact Hno | apply Hall; lia].
Qed.

Lemma Find_Sync_reads p m block_siz step depth sync0 :
  reads p m ->
  exists result offset sync,
    Find_Sync p block_siz step depth sync0 = Ok (result, offset, sync) /\
    (result = true ->
       0 <= offset < block_siz - step * depth /\ train m step depth offset /\
       sync = hard_byte m offset /\
       forall i, 0 <= i < offset -> ~ train m step depth i) /\
    (result = false ->
       offset = 0 /\
       forall i, 0 <= i < block_siz - step * depth -> ~ train m step depth i).
Proof.
  intros H. unfold Find_Sync.
  destruct (Find_Sync_scan_reads p m step depth
              (Z.to_nat (block_siz - step * depth)) 0 sync0 H)
    as (r & off & s & Hr & Ht & Hf).
  exists r, off, s. split; [exact Hr|]. split.
  - intros E. destruct (Ht E) as (Hoff & Htr & Hs & Hmin).
    split; [lia|]. split; [exact Htr|]. split; [exact Hs|].
    intros i' Hi'. apply Hmin. lia.
  - intros E. destruct (Hf E) as (Hoff & Hall). split; [exact Hoff|].
    intros i Hi. apply Hall. lia.
Qed.

Example Byte_at_Offset_sync_word :
  Byte_at_Offset (total (fun i => nth (Z.to_nat i) Samples.sync_word 0)) = Ok 39.
Proof. reflexivity. Qed.

Example Find_Sync_frames :
  Find_Sync (total (fun i => nth (Z.to_nat i) (7 :: Samples.frames 6 200) 0))
    400 80 4 0 = Ok (true, 1, 39).
Proof. vm_compute. reflexivity. Qed.

(** C5.  On a window whose symbols are [m], [Find_Sync] succeeds exactly
    when some offset [i] in [[0, block_siz - step * depth)] has its
    hard-decision byte repeated at [i + k * step] for every [k = 1 .. depth];
    it then reports the smallest such offset and the byte found there, and
    it reports [false] otherwise. *)
Theorem Find_Sync_correct (m : Z -> Z) (block_siz step depth sync0 : Z) :
  exists result offset sync,
    Sync.Find_Sync (total m) block_siz step depth sync0
      = Ok (result, offset, sync) /\
    (result = true <->
       exists i, 0 <= i < block_siz - step * depth /\
                 SyncSpec.train m step depth i) /\
    (result = true ->
       0 <= offset < block_siz - step * depth /\
       SyncSpec.train m step depth offset /\
       (forall i, 0 <= i < offset -> ~ SyncSpec.train m step depth i) /\
       sync = SyncSpec.hard_byte m offset).
Proof.
  destruct (Find_Sync_reads (total m) m block_siz step depth sync0
              (reads_total m)) as (r & off & s & Hr & Ht & Hf).
  exists r, off, s. split; [exact Hr|]. split.
  - split.
    + intros E. destruct (Ht E) as (Hoff & Htr & _). now exists off.
    + intros (i & Hi & Htr). destruct r; [reflexivity|].
      destruct (Hf eq_refl) as (_ & Hall). exfalso. exact (Hall i Hi Htr).
  - intros E. destruct (Ht E) as (Hoff & Htr & Hs & Hmin). tauto.
Qed.

End SyncFacts.

Lemma length_upd buf n v : length (upd buf n v) = length buf.
Proof.
  revert n. induction buf as [|h t IH]; intros [|n]; cbn; try reflexivity.
  now rewrite IH.
Qed.

Lemma nth_upd_eq buf n v d : (n < length buf)%nat -> nth n (upd buf n v) d = v.
Proof.
  revert n. induction buf as [|h t IH]; intros [|n] H; cbn in *; try lia.
  apply IH. lia.
Qed.

Lemma nth_upd_neq buf n k v d : n <> k -> nth k (upd buf n v) d = nth k buf d.
Proof.
  revert n k. induction buf as [|h t IH]; intros [|n] [|k] H; cbn;
    try reflexivity; try congruence.
  apply IH. congruence.
Qed.

Lemma store_ok r buf i v :
  0 <= i < Z.of_nat (length buf) -> store r buf i v = Ok (upd buf (Z.to_nat i) v).
Proof. intros H. unfold store. apply in_bounds_iff in H. now rewrite H. Qed.

Module ResyncFacts.
Import Sync SyncSpec SyncFacts Resync ResyncSpec.

Lemma reads_lenient buf past : reads (src_at (lenient past) buf) (view buf past).
Proof.
  intros i. unfold src_at, lenient, total, view.
  now destruct (in_bounds buf i).
Qed.

Lemma hard_byte_add m a off :
  hard_byte (fun k => m (a + k)) off = hard_byte m (a + off).
Proof. unfold hard_byte. now rewrite !Z.add_assoc. Qed.

Lemma train_add m a step depth off :
  train (fun k => m (a + k)) step depth off -> train m step depth (a + off).
Proof.
  intros H k Hk. specialize (H k Hk). rewrite !hard_byte_add in H.
  now rewrite <- Z.add_assoc.
Qed.

Section Loops.

Variable overread : ptr.
Variable src_buf : list Z.
Variable m : Z -> Z.
Hypothesis Hreads : reads (src_at overread src_buf) m.

Lemma look_ahead_ok posn limit2 sync n : forall i,
  exists b, look_ahead overread src_buf posn limit2 sync n i = Ok b.
Proof.
  induction n as [|n IH]; intros i; cbn [look_ahead].
  - now exists false.
  - destruct (posn + i * INTLV_SYNCDATA <? limit2); [|apply IH].
    rewrite (Byte_at_Offset_at _ _ _ Hreads). cbn [bind].
    destruct (sync =? _); [now exists true | apply IH].
Qed.

(** The first look at [posn] itself finds the sync byte when it is there. *)
Lemma look_ahead_here posn limit2 n :
  posn < limit2 ->
  look_ahead overread src_buf posn limit2 (hard_byte m posn) (S n) 0 = Ok true.
Proof.
  intros H. cbn [look_ahead]. unfold INTLV_SYNCDATA.
  replace (posn + 0 * 80) with posn by lia.
  destruct (Z.ltb_spec posn limit2); [|lia].
  rewrite (Byte_at_Offset_at _ _ _ Hreads). cbn [bind].
  now rewrite Z.eqb_refl.
Qed.

Lemma memcpy_ok p d n : forall dst k,
  (exists v, reads p v) ->
  0 <= d + k -> d + k + Z.of_nat n <= Z.of_nat (length dst) ->
  exists dst', memcpy dst d p n k = Ok dst' /\ length dst' = length dst.
Proof.
  induction n as [|n IH]; intros dst k Hp Hlo Hhi; cbn [memcpy].
  - now exists dst.
  - destruct Hp as (v & Hv). rewrite (Hv k). cbn [bind].
    rewrite store_ok by lia. cbn [bind].
    destruct (IH (upd dst (Z.to_nat (d + k)) (v k)) (k + 1)) as (dst' & E & Hl).
    + now exists v.
    + lia.
    + rewrite length_upd. lia.
    + exists dst'. split; [exact E|]. now rewrite Hl, length_upd.
Qed.

Variable L : Z.

Lemma track_ok sync fuel : forall raw_buf resync_siz posn,
  resync_inv L raw_buf resync_siz posn ->
  (0 < fuel)%nat -> L - 80 - posn < Z.of_nat fuel ->
  exists raw_buf' resync_siz' posn',
    track overread fuel src_buf (L - 80) sync raw_buf resync_siz posn
      = Ok (raw_buf', resync_siz', posn') /\
    resync_inv L raw_buf' resync_siz' posn' /\ posn <= posn' /\
    (posn' = posn \/ posn' < L) /\
    (posn < L - 80 -> sync = hard_byte m posn -> posn + 80 <= posn').
Proof.
  induction fuel as [|fuel IH]; intros raw_buf n posn Hinv Hpos Hfuel.
  - lia.
  - cbn [track]. destruct (Z.ltb_spec posn (L - 80)) as [Hlt | Hge].
    2:{ exists raw_buf, n, posn. split; [reflexivity|].
        split; [exact Hinv|]. split; [lia|]. split; [now left | lia]. }
    assert (Hfirst : sync = hard_byte m posn ->
              look_ahead overread src_buf posn (L - 80) sync 128 0 = Ok true).
    { intros ->. apply (look_ahead_here posn (L - 80) 127 Hlt). }
    destruct (look_ahead_ok posn (L - 80) sync 128 0) as (ok & Hok).
    rewrite Hok. cbn [bind]. destruct ok; cbn [negb].
    2:{ exists raw_buf, n, posn. split; [reflexivity|].
        split; [exact Hinv|]. split; [lia|]. split; [now left|].
        intros _ Hs. rewrite (Hfirst Hs) in Hok. discriminate. }
    destruct Hinv as (Hlen & Hn & Hdiv & Hrate & Hposn).
    unfold INTLV_DATA_LEN, INTLV_SYNCDATA.
    destruct (memcpy_ok (src_at overread src_buf @+ (posn + 8)) n
                (Z.to_nat 72) raw_buf 0) as (raw' & Hcpy & Hlen').
    { eexists. apply reads_add, Hreads. }
    { lia. }
    { lia. }
    rewrite Hcpy. cbn [bind].
    destruct (IH raw' (n + 72) (posn + 80))
      as (raw'' & n'' & posn'' & Hrun & Hinv' & Hle & Hpos' & _).
    { unfold resync_inv. rewrite Hlen'. split; [exact Hlen|]. split; [lia|].
      split; [|lia]. destruct Hdiv as (q & ->). exists (q + 1). lia. }
    { lia. }
    { lia. }
    exists raw'', n'', posn''. split; [exact Hrun|]. split; [exact Hinv'|].
    split; [lia|]. split; [right; lia | intros _ _; lia].
Qed.

(** The coarse loop, from any state the loops can be in. *)
Lemma acquire_ok inner fuel : forall raw_buf resync_siz posn sync,
  resync_inv L raw_buf resync_siz posn -> 0 <= posn ->
  L + 1 <= Z.of_nat inner ->
  (0 < fuel)%nat -> L - 320 - posn < Z.of_nat fuel ->
  exists raw_buf' resync_siz',
    acquire overread fuel inner src_buf (L - 320) (L - 80)
      raw_buf resync_siz posn sync = Ok (raw_buf', resync_siz') /\
    Z.of_nat (length raw_buf') = L /\ (72 | resync_siz') /\
    (resync_siz' = 0 \/ 0 < resync_siz' < L) /\
    (resync_siz' <> 0 ->
     resync_siz <> 0 \/ exists p, 0 <= p < L /\ train m 80 4 p).
Proof.
  induction fuel as [|fuel IH];
    intros raw_buf n posn sync Hinv Hposn Hinner Hpos Hfuel.
  - lia.
  - cbn [acquire]. destruct (Z.ltb_spec posn (L - 320)) as [Hlt | Hge].
    2:{ exists raw_buf, n. split; [reflexivity|].
        destruct Hinv as (Hlen & Hn & Hdiv & Hrate & Hp).
        split; [exact Hlen|]. split; [exact Hdiv|].
        split; [lia | intros H; now left]. }
    unfold SYNCD_BLOCK_SIZ, INTLV_SYNCDATA, SYNCD_DEPTH, SYNCD_BUF_STEP.
    destruct (Find_Sync_reads (src_at overread src_buf @+ posn)
                (fun k => m (posn + k)) 400 80 4 sync
                (reads_add _ _ posn Hreads))
      as (found & offset & sync' & Hfind & Htrue & _).
    rewrite Hfind. cbn [bind]. destruct found; cbn [negb].
    + destruct (Htrue eq_refl) as (Hoff & Htrain & Hsync & _).
      apply train_add in Htrain. rewrite hard_byte_add in Hsync.
      destruct Hinv as (Hlen & Hn & Hdiv & Hrate & Hp).
      destruct (track_ok sync' inner raw_buf n (posn + offset))
        as (raw' & n' & posn' & Hrun & Hinv' & Hle & Hpos' & Hstep).
      { unfold resync_inv. repeat split; try assumption; try lia. }
      { lia. }
      { lia. }
      rewrite Hrun. cbn [bind].
      specialize (Hstep ltac:(lia) Hsync).
      destruct (IH raw' n' posn' sync' Hinv' ltac:(lia) Hinner
                  ltac:(lia) ltac:(lia))
        as (raw'' & n'' & Hacq & Hlen'' & Hdiv'' & Hsmall & _).
      exists raw'', n''. split; [exact Hacq|]. split; [exact Hlen''|].
      split; [exact Hdiv''|]. split; [exact Hsmall|].
      intros _. right. exists (posn + offset). split; [lia | exact Htrain].
    + destruct Hinv as (Hlen & Hn & Hdiv & Hrate & Hp).
      destruct (IH raw_buf n (posn + 240) sync')
        as (raw'' & n'' & Hacq & Hlen'' & Hdiv'' & Hsmall & Hwhy).
      { unfold resync_inv. repeat split; try assumption; try lia. }
      { lia. }
      { exact Hinner. }
      { lia. }
      { lia. }
      exists raw'', n''. split; [exact Hacq|]. split; [exact Hlen''|].
      split; [exact Hdiv''|]. split; [exact Hsmall | exact Hwhy].
Qed.

End Loops.

Lemma Resync_Stream_lenient raw_buf past :
  exists raw_buf' resync_siz,
    Resync_Stream (lenient past) raw_buf = Ok (raw_buf', resync_siz) /\
    length raw_buf' = length raw_buf /\ (72 | resync_siz) /\
    (resync_siz = 0 \/ 0 < resync_siz < Z.of_nat (length raw_buf)) /\
    (resync_siz <> 0 ->
     exists p, 0 <= p < Z.of_nat (length raw_buf) /\
               train (view raw_buf past) 80 4 p).
Proof.
  unfold Resync_Stream, SYNCD_BUF_MARGIN, INTLV_SYNCDATA.
  set (L := Z.of_nat (length raw_buf)).
  destruct (acquire_ok (lenient past) raw_buf (view raw_buf past)
              (reads_lenient raw_buf past) L
              (S (length raw_buf)) (S (length raw_buf)) raw_buf 0 0 0)
    as (raw' & n & Hrun & Hlen & Hdiv & Hsmall & Hwhy).
  - unfold resync_inv. repeat split; try lia. exists 0. lia.
  - lia.
  - lia.
  - lia.
  - lia.
  - unfold L in *. exists raw', n.
    split; [exact Hrun|]. split; [now apply Nat2Z.inj|]. split; [exact Hdiv|].
    split.
    + exact Hsmall.
    + intros Hne. destruct (Hwhy Hne) as [H | H]; [contradiction | exact H].
Qed.

End ResyncFacts.

Lemma bind_inv {A B : Type} (m : res A) (k : A -> res B) (b : B) :
  bind m k = Ok b -> exists a, m = Ok a /\ k a = Ok b.
Proof. destruct m as [a | |]; cbn; [now exists a | discriminate | discriminate]. Qed.

Module StrictRuns.
Import Sync SyncSpec SyncFacts Resync ResyncSpec ResyncFacts.

Lemma ptr_le_add p q a : ptr_le p q -> ptr_le (p @+ a) (q @+ a).
Proof. intros H i v. unfold ptr_add. apply H. Qed.

Lemma ptr_le_strict buf past :
  ptr_le (src_at strict buf) (src_at (lenient past) buf).
Proof.
  intros i v. unfold src_at, strict, lenient, total.
  now destruct (in_bounds buf i).
Qed.

Lemma ptr_le_lenient overread buf :
  ptr_le (src_at overread buf) (src_at (lenient (past_of overread)) buf).
Proof.
  intros i v. unfold src_at, lenient, total, past_of.
  destruct (in_bounds buf i); [trivial|]. now intros ->.
Qed.

Section Mono.

Variables p q : ptr.
Hypothesis Hle : ptr_le p q.

Lemma Byte_loop_mono n : forall i result b,
  Byte_loop p n i result = Ok b -> Byte_loop q n i result = Ok b.
Proof.
  induction n as [|n IH]; intros i result b; cbn [Byte_loop]; [trivial|].
  intros H. apply bind_inv in H as (d & Hd & H).
  rewrite (Hle _ _ Hd). cbn [bind]. now apply IH.
Qed.

End Mono.

Lemma Byte_at_Offset_mono p q b :
  ptr_le p q -> Byte_at_Offset p = Ok b -> Byte_at_Offset q = Ok b.
Proof. intros Hle. now apply Byte_loop_mono. Qed.

Section Mono2.

Variables p q : ptr.
Hypothesis Hle : ptr_le p q.

Lemma Find_Sync_ahead_mono step i sync n : forall j b,
  Find_Sync_ahead p step i sync n j = Ok b ->
  Find_Sync_ahead q step i sync n j = Ok b.
Proof.
  induction n as [|n IH]; intros j b; cbn [Find_Sync_ahead]; [trivial|].
  intros H. apply bind_inv in H as (t & Ht & H).
  rewrite (Byte_at_Offset_mono _ _ _ (ptr_le_add _ _ _ Hle) Ht). cbn [bind].
  destruct (negb (sync =? t)); [exact H | now apply IH].
Qed.

Lemma Find_Sync_scan_mono step depth n : forall i sync r,
  Find_Sync_scan p step depth n i sync = Ok r ->
  Find_Sync_scan q step depth n i sync = Ok r.
Proof.
  induction n as [|n IH]; intros i sync r; cbn [Find_Sync_scan]; [trivial|].
  intros H. apply bind_inv in H as (s & Hs & H).
  rewrite (Byte_at_Offset_mono _ _ _ (ptr_le_add _ _ _ Hle) Hs). cbn [bind].
  apply bind_inv in H as (b & Hb & H).
  rewrite (Find_Sync_ahead_mono _ _ _ _ _ _ Hb). cbn [bind].
  destruct b; [exact H | now apply IH].
Qed.

Lemma memcpy_mono d n : forall dst k dst',
  memcpy dst d p n k = Ok dst' -> memcpy dst d q n k = Ok dst'.
Proof.
  induction n as [|n IH]; intros dst k dst'; cbn [memcpy]; [trivial|].
  intros H. apply bind_inv in H as (v & Hv & H).
  rewrite (Hle _ _ Hv). cbn [bind].
  apply bind_inv in H as (dst1 & Hst & H). rewrite Hst. cbn [bind].
  now apply IH.
Qed.

End Mono2.

Section Mono3.

Variables o o' : ptr.
Variable src_buf : list Z.
Hypothesis Hle : ptr_le (src_at o src_buf) (src_at o' src_buf).

Lemma look_ahead_mono posn limit2 sync n : forall i b,
  look_ahead o src_buf posn limit2 sync n i = Ok b ->
  look_ahead o' src_buf posn limit2 sync n i = Ok b.
Proof.
  induction n as [|n IH]; intros i b; cbn [look_ahead]; [trivial|].
  destruct (posn + i * INTLV_SYNCDATA <? limit2); [|apply IH].
  intros H. apply bind_inv in H as (t & Ht & H).
  rewrite (Byte_at_Offset_mono _ _ _ (ptr_le_add _ _ _ Hle) Ht). cbn [bind].
  destruct (sync =? t); [exact H | now apply IH].
Qed.

Lemma track_mono limit2 sync fuel : forall raw_buf resync_siz posn r,
  track o fuel src_buf limit2 sync raw_buf resync_siz posn = Ok r ->
  track o' fuel src_buf limit2 sync raw_buf resync_siz posn = Ok r.
Proof.
  induction fuel as [|fuel IH]; intros raw_buf n posn r; cbn [track];
    [trivial|].
  destruct (posn <? limit2); [|trivial].
  intros H. apply bind_inv in H as (ok & Hok & H).
  rewrite (look_ahead_mono _ _ _ _ _ _ Hok). cbn [bind].
  destruct (negb ok); [exact H|].
  apply bind_inv in H as (raw' & Hcpy & H).
  rewrite (memcpy_mono _ _ (ptr_le_add _ _ _ Hle) _ _ _ _ _ Hcpy). cbn [bind].
  now apply IH.
Qed.

Lemma acquire_mono inner limit1 limit2 fuel : forall raw_buf resync_siz posn sync r,
  acquire o fuel inner src_buf limit1 limit2 raw_buf resync_siz posn sync = Ok r ->
  acquire o' fuel inner src_buf limit1 limit2 raw_buf resync_siz posn sync = Ok r.
Proof.
  induction fuel as [|fuel IH]; intros raw_buf n posn sync r; cbn [acquire];
    [trivial|].
  destruct (posn <? limit1); [|trivial].
  intros H. apply bind_inv in H as ([[found offset] sync'] & Hfind & H).
  unfold Find_Sync in *.
  rewrite (Find_Sync_scan_mono _ _ (ptr_le_add _ _ _ Hle) _ _ _ _ _ _ Hfind).
  cbn [bind]. destruct (negb found); [now apply IH|].
  apply bind_inv in H as ([[raw' n'] posn'] & Htrack & H).
  rewrite (track_mono _ _ _ _ _ _ _ Htrack). cbn [bind]. now apply IH.
Qed.

End Mono3.

(** A run that stays inside the private copy does not depend on what lies
    beyond it: every lenient run returns the same. *)
Lemma Resync_Stream_strict raw_buf r :
  Resync_Stream strict raw_buf = Ok r ->
  forall past, Resync_Stream (lenient past) raw_buf = Ok r.
Proof.
  intros H past. unfold Resync_Stream in *.
  exact (acquire_mono strict (lenient past) raw_buf
           (ptr_le_strict raw_buf past) _ _ _ _ _ _ _ _ _ H).
Qed.

(** Whatever reads past the copy yield, a run that returns is the lenient
    run over the bytes it was given. *)
Lemma Resync_Stream_any overread raw_buf r :
  Resync_Stream overread raw_buf = Ok r ->
  Resync_Stream (lenient (past_of overread)) raw_buf = Ok r.
Proof.
  intros H. unfold Resync_Stream in *.
  exact (acquire_mono overread (lenient (past_of overread)) raw_buf
           (ptr_le_lenient overread raw_buf) _ _ _ _ _ _ _ _ _ H).
Qed.

(** So the length any run reports obeys the same law. *)
Lemma Resync_Stream_any_length overread raw_buf raw_buf' resync_siz :
  Resync_Stream overread raw_buf = Ok (raw_buf', resync_siz) ->
  length raw_buf' = length raw_buf /\ (72 | resync_siz) /\
  (resync_siz = 0 \/ 0 < resync_siz < Z.of_nat (length raw_buf)).
Proof.
  intros H. apply Resync_Stream_any in H.
  destruct (Resync_Stream_lenient raw_buf (past_of overread))
    as (raw' & n & Hrun & Hlen & Hdiv & Hsmall & _).
  rewrite H in Hrun. injection Hrun as <- <-. now repeat split.
Qed.

(** A byte that was assembled was read from all of its 8 symbols. *)
Lemma Byte_at_Offset_inv p b :
  Byte_at_Offset p = Ok b -> (exists v, p 0 = Ok v) /\ (exists v, p 7 = Ok v).
Proof.
  unfold Byte_at_Offset. cbn [Byte_loop]. intros H.
  apply bind_inv in H as (d0 & H0 & H). change (u8 (0 + 1)) with 1 in H.
  apply bind_inv in H as (d1 & H1 & H). change (u8 (1 + 1)) with 2 in H.
  apply bind_inv in H as (d2 & H2 & H). change (u8 (2 + 1)) with 3 in H.
  apply bind_inv in H as (d3 & H3 & H). change (u8 (3 + 1)) with 4 in H.
  apply bind_inv in H as (d4 & H4 & H). change (u8 (4 + 1)) with 5 in H.
  apply bind_inv in H as (d5 & H5 & H). change (u8 (5 + 1)) with 6 in H.
  apply bind_inv in H as (d6 & H6 & H). change (u8 (6 + 1)) with 7 in H.
  apply bind_inv in H as (d7 & H7 & H).
  split; [now exists d0 | now exists d7].
Qed.

(** A look-forward that succeeded read the last symbol of the last byte. *)
Lemma Find_Sync_ahead_inv p step i sync n : forall j,
  Find_Sync_ahead p step i sync (S n) j = Ok true ->
  exists v, p (i + (j + Z.of_nat n) * step + 7) = Ok v.
Proof.
  induction n as [|n IH]; intros j H; cbn [Find_Sync_ahead] in H.
  - apply bind_inv in H as (t & Ht & _).
    apply Byte_at_Offset_inv in Ht as (_ & v & Hv). exists v.
    unfold ptr_add in Hv. now replace (j + Z.of_nat 0) with j by lia.
  - apply bind_inv in H as (t & _ & H).
    destruct (negb (sync =? t)); [discriminate|].
    destruct (IH (j + 1)) as (v & Hv); [exact H|]. exists v.
    now replace (j + Z.of_nat (S n)) with (j + 1 + Z.of_nat n) by lia.
Qed.

Lemma Find_Sync_scan_inv p step depth n : forall i sync0 offset sync,
  Find_Sync_scan p step depth n i sync0 = Ok (true, offset, sync) ->
  (exists v, p (offset + 0) = Ok v) /\
  Find_Sync_ahead p step offset sync (Z.to_nat depth) 1 = Ok true.
Proof.
  induction n as [|n IH]; intros i sync0 offset sync H;
    cbn [Find_Sync_scan] in H; [discriminate|].
  apply bind_inv in H as (s & Hs & H).
  apply bind_inv in H as (b & Hb & H). destruct b.
  - injection H as <- <-. split; [|exact Hb].
    now apply Byte_at_Offset_inv in Hs as (Hv & _).
  - now apply IH in H.
Qed.

(** If the coarse loop changes [*resync_siz], some call of [Find_Sync]
    succeeded. *)
Lemma acquire_found o src_buf inner limit1 limit2 fuel :
  forall raw_buf n posn sync raw_buf' n',
  acquire o fuel inner src_buf limit1 limit2 raw_buf n posn sync
    = Ok (raw_buf', n') ->
  n' = n \/
  exists posn0 sync0 offset sync1,
    Find_Sync (src_at o src_buf @+ posn0) 400 80 4 sync0
      = Ok (true, offset, sync1).
Proof.
  induction fuel as [|fuel IH]; intros raw_buf n posn sync raw_buf' n' H;
    cbn [acquire] in H; [discriminate|].
  destruct (posn <? limit1).
  2:{ injection H as _ <-. now left. }
  apply bind_inv in H as ([[found offset] sync'] & Hfind & H).
  destruct found; cbn [negb] in H.
  - right. now exists posn, sync, offset, sync'.
  - now apply IH in H.
Qed.

(** A bounds-checked run that reports a length other than zero found a
    sync train that lies inside the buffer, all five bytes of it. *)
Lemma Resync_Stream_strict_train raw_buf raw_buf' resync_siz :
  Resync_Stream strict raw_buf = Ok (raw_buf', resync_siz) ->
  resync_siz <> 0 ->
  exists p, 0 <= p /\ p + 328 <= Z.of_nat (length raw_buf) /\
    train (fun i => nth (Z.to_nat i) raw_buf 0) 80 4 p.
Proof.
  intros H Hne. unfold Resync_Stream in H.
  apply acquire_found in H as [E | (posn & s0 & off & s1 & Hfind)];
    [congruence|].
  assert (Hin : forall i v, src_at strict raw_buf i = Ok v ->
                  0 <= i < Z.of_nat (length raw_buf)).
  { intros i v. unfold src_at, strict.
    destruct (in_bounds raw_buf i) eqn:E; [|discriminate].
    intros _. now apply in_bounds_iff. }
  pose proof Hfind as Hscan. unfold Find_Sync in Hscan.
  apply Find_Sync_scan_inv in Hscan as ((v0 & Hv0) & Hahead).
  apply (Find_Sync_ahead_inv _ _ _ _ 3 1) in Hahead as (v4 & Hv4).
  unfold ptr_add in Hv0, Hv4. apply Hin in Hv0. apply Hin in Hv4.
  exists (posn + off). split; [lia|]. split; [lia|].
  (* the train, read through the buffer alone *)
  set (m := fun i => nth (Z.to_nat i) raw_buf 0).
  assert (Hle : ptr_le (src_at strict raw_buf @+ posn)
                       (total (fun k => view raw_buf m (posn + k)))).
  { intros i v Hv. unfold ptr_add in Hv. unfold total, view.
    unfold src_at, strict in Hv.
    destruct (in_bounds raw_buf (posn + i)); [exact Hv | discriminate]. }
  pose proof (Find_Sync_scan_mono _ _ Hle _ _ _ _ _ _ Hfind) as Hfind'.
  destruct (Find_Sync_reads _ _ 400 80 4 s0
              (reads_total (fun k => view raw_buf m (posn + k))))
    as (r & off' & s' & Hrun & Htrue & _).
  unfold Find_Sync in Hrun. rewrite Hfind' in Hrun.
  injection Hrun as <- <- <-.
  destruct (Htrue eq_refl) as (_ & Htrain & _).
  apply train_add in Htrain.
  intros k Hk. specialize (Htrain k Hk). unfold hard_byte in *.
  unfold view in Htrain.
  repeat match type of Htrain with
  | context [in_bounds raw_buf ?i] =>
      let E := fresh "E" in
      destruct (in_bounds raw_buf i) eqn:E;
      [|exfalso; apply not_true_iff_false in E; apply E, in_bounds_iff; lia]
  end.
  exact Htrain.
Qed.

Lemma De_Interleave_strict mem_alloc raw resync0 out :
  De_Interleave strict mem_alloc raw resync0 = Ok out ->
  forall past, De_Interleave (lenient past) mem_alloc raw resync0 = Ok out.
Proof.
  intros H past. unfold De_Interleave in *.
  apply bind_inv in H as ([raw' n] & Hrun & H).
  now rewrite (Resync_Stream_strict _ _ Hrun past).
Qed.

End StrictRuns.

Module DeinterleaveFacts.
Import Sync SyncSpec SyncFacts Resync ResyncSpec ResyncFacts StrictRuns Samples.

Lemma deinterleave_spec raw N n : forall idx cur written,
  0 <= idx -> idx + Z.of_nat n = N ->
  Z.of_nat (length cur) = N -> N <= Z.of_nat (length raw) ->
  exists cur' written',
    deinterleave raw N n idx cur written = Ok (cur', written') /\
    length cur' = length cur /\
    (forall i, 0 <= i < idx ->
       nth (Z.to_nat i) cur' 0 = nth (Z.to_nat i) cur 0) /\
    (forall i, idx <= i < N ->
       (source_index i < N ->
        nth (Z.to_nat i) cur' 0 = nth (Z.to_nat (source_index i)) raw 0) /\
       (N <= source_index i ->
        nth (Z.to_nat i) cur' 0 = nth (Z.to_nat i) cur 0)) /\
    (forall i, In i written' ->
       In i written \/ (idx <= i < N /\ source_index i < N)).
Proof.
  induction n as [|n IH]; intros idx cur written Hidx Hn Hcur Hraw.
  - exists cur, written. split; [reflexivity|]. split; [reflexivity|].
    split; [reflexivity|]. split; [intros i Hi; lia | intros i Hi; now left].
  - cbn [deinterleave]. unfold INTLV_BRANCHES, INTLV_BASE_LEN.
    rewrite Z.rem_mod_nonneg by lia. fold (source_index idx).
    assert (Hsrc : idx <= source_index idx).
    { unfold source_index. pose proof (Z.mod_pos_bound idx 36). lia. }
    destruct (Z.ltb_spec (source_index idx) N) as [Hlt | Hge].
    + rewrite load_ok by lia. cbn [bind].
      rewrite store_ok by lia. cbn [bind].
      set (v := nth (Z.to_nat (source_index idx)) raw 0).
      destruct (IH (idx + 1) (upd cur (Z.to_nat idx) v) (idx :: written))
        as (cur' & w' & Hrun & Hlen & Hlow & Hhigh & Hw);
        try lia; try (rewrite length_upd; lia).
      exists cur', w'. split; [exact Hrun|].
      split; [now rewrite Hlen, length_upd|]. split; [|split].
      * intros i Hi. rewrite Hlow by lia. apply nth_upd_neq. lia.
      * intros i Hi. destruct (Z.eq_dec i idx) as [-> | Hne].
        -- split; [|lia]. intros _. rewrite Hlow by lia.
           apply nth_upd_eq. lia.
        -- destruct (Hhigh i ltac:(lia)) as (Hin & Hout).
           split; [exact Hin|]. intros H. rewrite (Hout H).
           apply nth_upd_neq. lia.
      * intros i Hi. destruct (Hw i Hi) as [[<- | H] | H].
        -- right. lia.
        -- now left.
        -- right. lia.
    + destruct (IH (idx + 1) cur written)
        as (cur' & w' & Hrun & Hlen & Hlow & Hhigh & Hw); try lia.
      exists cur', w'. split; [exact Hrun|]. split; [exact Hlen|].
      split; [|split].
      * intros i Hi. apply Hlow. lia.
      * intros i Hi. destruct (Z.eq_dec i idx) as [-> | Hne].
        -- split; [lia|]. intros _. apply Hlow. lia.
        -- apply Hhigh. lia.
      * intros i Hi. destruct (Hw i Hi) as [H | H]; [now left | right; lia].
Qed.

(** Seven clean frames: the sync word is found at once, and the data of
    the first six frames are copied; the seventh is not reached, as the
    tracking loop stops at [posn = raw_siz - 80]. *)
Example Resync_Stream_frames :
  match Resync_Stream strict (frames 7 1) with
  | Ok (raw_buf', resync_siz) =>
      resync_siz = 432 /\
      firstn 144 raw_buf' = repeat 1 72 ++ repeat 2 72
  | _ => False
  end.
Proof. vm_compute. split; reflexivity. Qed.

(** X21.  The length [Resync_Stream] reports.  Whatever bytes [past] lie
    beyond the private copy, [Resync_Stream] returns, and the length it
    reports is a multiple of 72 that is either zero or positive and strictly
    below the length of the raw buffer; it is zero when no position of the
    buffer starts a sync train in what the locator reads ([view]: the
    buffer followed by [past]), a sync train being a hard-decision byte that
    recurs 80, 160, 240 and 320 symbols further on.  The same holds of the
    length a bounds-checked run reports when it returns, where the sync
    train is one that lies wholly inside the buffer. *)
Theorem Resync_Stream_length (raw_buf : list Z) :
  (forall past, exists raw_buf' resync_siz,
     Resync.Resync_Stream (Resync.lenient past) raw_buf
       = Ok (raw_buf', resync_siz) /\
     (72 | resync_siz) /\
     (resync_siz = 0 \/ 0 < resync_siz < Z.of_nat (length raw_buf)) /\
     ((forall p, 0 <= p < Z.of_nat (length raw_buf) ->
         ~ SyncSpec.train (ResyncSpec.view raw_buf past) 80 4 p) ->
      resync_siz = 0)) /\
  (forall raw_buf' resync_siz,
     Resync.Resync_Stream Resync.strict raw_buf = Ok (raw_buf', resync_siz) ->
     (72 | resync_siz) /\
     (resync_siz = 0 \/ 0 < resync_siz < Z.of_nat (length raw_buf)) /\
     ((forall p, 0 <= p -> p + 328 <= Z.of_nat (length raw_buf) ->
         ~ SyncSpec.train (fun i => nth (Z.to_nat i) raw_buf 0) 80 4 p) ->
      resync_siz = 0)).
Proof.
  split.
  - intros past.
    destruct (Resync_Stream_lenient raw_buf past)
      as (raw' & n & Hrun & _ & Hdiv & Hsmall & Hwhy).
    exists raw', n. split; [exact Hrun|]. split; [exact Hdiv|].
    split; [exact Hsmall|]. intros Hnone.
    destruct (Z.eq_dec n 0) as [E | Hne]; [exact E | exfalso].
    destruct (Hwhy Hne) as (p & Hp & Htrain). exact (Hnone p Hp Htrain).
  - intros raw' n Hrun.
    destruct (Resync_Stream_any_length _ _ _ _ Hrun) as (_ & Hdiv & Hsmall).
    split; [exact Hdiv|]. split; [exact Hsmall|]. intros Hnone.
    destruct (Z.eq_dec n 0) as [E | Hne]; [exact E | exfalso].
    destruct (Resync_Stream_strict_train _ _ _ Hrun Hne)
      as (p & Hp & Hroom & Htrain).
    exact (Hnone p Hp Hroom Htrain).
Qed.

(** C6, at the failing input: a raw buffer of 321 symbols, all 0.  No sync
    train exists anywhere in it: a train spans 4 * 80 + 8 = 328 symbols, so
    no position of a buffer of 321 has room for one.  Yet the coarse loop
    calls [Find_Sync] at [posn = 0] (as [0 < 321 - 320]), which takes the
    fifth byte of the train from [src_buf[320 .. 327]].  When the seven
    bytes after the private copy read as 0, that byte is 255 like the four
    before it, and [Resync_Stream] reports 288 symbols where the claim says
    zero; when they read as 255 it reports 0.  The reported length depends
    on bytes that are not in the buffer. *)
Theorem Resync_Stream_phantom_train :
  (forall p, 0 <= p -> p + 328 <= Z.of_nat (length (repeat 0 321)) ->
     ~ SyncSpec.train (fun i => nth (Z.to_nat i) (repeat 0 321) 0) 80 4 p) /\
  Resync.Resync_Stream (Resync.lenient (fun _ => 0)) (repeat 0 321)
  = Ok (repeat 0 321, 288) /\
  Resync.Resync_Stream (Resync.lenient (fun _ => 255)) (repeat 0 321)
  = Ok (repeat 0 321, 0).
Proof.
  split; [|split].
  - intros p Hp Hroom. rewrite repeat_length in Hroom. lia.
  - vm_compute. reflexivity.
  - vm_compute. reflexivity.
Qed.

(** C2, at the failing input: on a raw buffer of 321 symbols, all 0, the
    coarse loop calls [Find_Sync] at [posn = 0] (as [0 < 321 - 320]); the
    bytes at 0, 80, 160 and 240 agree, and the fifth is read from
    [src_buf[320 .. 327]], of which only index 320 exists. *)
Theorem Resync_Stream_overread :
  Resync.Resync_Stream Resync.strict (repeat 0 321) = Fault SrcBuf 321.
Proof. vm_compute. reflexivity. Qed.

(** C1.  Whatever reads past the private copy yield: when the length
    [Resync_Stream] reports is zero, or is not below the length of the raw
    buffer, [De_Interleave] stores nothing into [*resync], which still
    points to the buffer it pointed to on entry, and shows the message
    "Resync_Stream() failed". *)
Theorem De_Interleave_failure (overread : ptr) (mem_alloc : Z -> list Z)
    (raw resync0 raw' : list Z) (resync_siz : Z) :
  Resync.Resync_Stream overread raw = Ok (raw', resync_siz) ->
  resync_siz = 0 \/ Z.of_nat (length raw) <= resync_siz ->
  Resync.De_Interleave overread mem_alloc raw resync0 =
    Ok {| out_raw := raw'; out_resync := resync0;
          out_resync_siz := resync_siz;
          out_messages := failure_message; out_written := [] |}.
Proof.
  intros Hrun Hfail.
  destruct (Resync_Stream_any_length _ _ _ _ Hrun) as (_ & _ & Hsmall).
  assert (resync_siz = 0) as -> by lia.
  unfold De_Interleave. rewrite Hrun. reflexivity.
Qed.

Lemma De_Interleave_failure_witness :
  Resync.De_Interleave Resync.strict
    (fun n => repeat 0 (Z.to_nat n)) noise [7; 7] =
    Ok {| out_raw := noise; out_resync := [7; 7]; out_resync_siz := 0;
          out_messages := failure_message; out_written := [] |}.
Proof.
  apply (De_Interleave_failure Resync.strict
           (fun n => repeat 0 (Z.to_nat n)) noise [7; 7] noise 0).
  - vm_compute. reflexivity.
  - left. reflexivity.
Defined.

(** C7.  Once [Resync_Stream] has left [resync_siz] symbols in the raw
    buffer, [De_Interleave] returns, and for every destination index [i]
    below [resync_siz]: if the source index [i + (i mod 36) * 73728] is below
    [resync_siz], the output symbol [i] is the symbol of the resynchronized
    buffer at the source index; otherwise the output symbol [i] is never
    stored to and holds what [mem_alloc] put there. *)
Theorem De_Interleave_index (overread : ptr) (mem_alloc : Z -> list Z)
    (raw resync0 raw' : list Z) (resync_siz : Z) :
  (forall n, 0 <= n -> length (mem_alloc n) = Z.to_nat n) ->
  Resync.Resync_Stream overread raw = Ok (raw', resync_siz) ->
  exists out,
    Resync.De_Interleave overread mem_alloc raw resync0 = Ok out /\
    out_raw out = raw' /\ out_resync_siz out = resync_siz /\
    forall i, 0 <= i < resync_siz ->
      (i + (i mod 36) * 73728 < resync_siz ->
       nth (Z.to_nat i) (out_resync out) 0
       = nth (Z.to_nat (i + (i mod 36) * 73728)) raw' 0) /\
      (resync_siz <= i + (i mod 36) * 73728 ->
       nth (Z.to_nat i) (out_resync out) 0
       = nth (Z.to_nat i) (mem_alloc resync_siz) 0 /\
       ~ In i (out_written out)).
Proof.
  intros Halloc Hrun.
  destruct (Resync_Stream_any_length _ _ _ _ Hrun) as (Hlen & _ & Hsmall).
  unfold De_Interleave. rewrite Hrun. cbn [bind].
  destruct Hsmall as [-> | Hn].
  - cbn. eexists. split; [reflexivity|]. cbn.
    split; [reflexivity|]. split; [reflexivity|]. intros i Hi. lia.
  - destruct (Z.eqb_spec resync_siz 0) as [? | _]; [lia|].
    destruct (Z.ltb_spec resync_siz (Z.of_nat (length raw))) as [_ | ?]; [|lia].
    cbn [negb andb].
    destruct (deinterleave_spec raw' resync_siz (Z.to_nat resync_siz) 0
                (mem_alloc resync_siz) [])
      as (cur' & w' & Hloop & _ & _ & Hhigh & Hw).
    { lia. }
    { lia. }
    { rewrite Halloc by lia. lia. }
    { rewrite Hlen. lia. }
    rewrite Hloop. cbn [bind]. eexists. split; [reflexivity|].
    cbn [out_raw out_resync out_resync_siz out_written].
    split; [reflexivity|]. split; [reflexivity|]. intros i Hi.
    destruct (Hhigh i Hi) as (Hin & Hout). unfold source_index in *.
    split; [exact Hin|]. intros Hge. split; [exact (Hout Hge)|].
    intros Hi'. destruct (Hw i Hi') as [[] | H]. lia.
Qed.

Lemma De_Interleave_index_witness :
  exists out,
    Resync.De_Interleave Resync.strict
      (fun n => repeat 0 (Z.to_nat n)) (frames 7 1) [] = Ok out /\
    out_raw out = frames_resynced /\ out_resync_siz out = 432 /\
    forall i, 0 <= i < 432 ->
      (i + (i mod 36) * 73728 < 432 ->
       nth (Z.to_nat i) (out_resync out) 0
       = nth (Z.to_nat (i + (i mod 36) * 73728)) frames_resynced 0) /\
      (432 <= i + (i mod 36) * 73728 ->
       nth (Z.to_nat i) (out_resync out) 0
       = nth (Z.to_nat i) ((fun n => repeat 0 (Z.to_nat n)) 432) 0 /\
       ~ In i (out_written out)).
Proof.
  apply (De_Interleave_index Resync.strict (fun n => repeat 0 (Z.to_nat n))
           (frames 7 1) [] frames_resynced 432).
  - intros n _. apply repeat_length.
  - vm_compute. reflexivity.
Defined.

End DeinterleaveFacts.

Lemma load_app r pre v post i :
  i = Z.of_nat (length pre) -> load r (pre ++ v :: post) i = Ok v.
Proof.
  intros ->. rewrite load_ok by (rewrite length_app; cbn; lia).
  rewrite Nat2Z.id, nth_middle. reflexivity.
Qed.

Lemma upd_app pre v post w :
  upd (pre ++ v :: post) (length pre) w = pre ++ w :: post.
Proof. induction pre as [|h t IH]; cbn; [reflexivity | now rewrite IH]. Qed.

Lemma store_app r pre v post i w :
  i = Z.of_nat (length pre) ->
  store r (pre ++ v :: post) i w = Ok (pre ++ w :: post).
Proof.
  intros ->. rewrite store_ok by (rewrite length_app; cbn; lia).
  rewrite Nat2Z.id, upd_app. reflexivity.
Qed.

Lemma load_app1 r pre x v post i :
  i = Z.of_nat (length pre) + 1 -> load r (pre ++ x :: v :: post) i = Ok v.
Proof.
  intros ->. change (pre ++ x :: v :: post) with (pre ++ [x] ++ v :: post).
  rewrite app_assoc. apply load_app. rewrite length_app. cbn. lia.
Qed.

Lemma store_app1 r pre x v post i w :
  i = Z.of_nat (length pre) + 1 ->
  store r (pre ++ x :: v :: post) i w = Ok (pre ++ x :: w :: post).
Proof.
  intros ->. change (pre ++ x :: v :: post) with (pre ++ [x] ++ v :: post).
  rewrite app_assoc, store_app by (rewrite length_app; cbn; lia).
  now rewrite <- app_assoc.
Qed.

Module DiffcodeFacts.
Import SqrtTable SqrtTableFacts Diffcode DiffcodeSpec.

Lemma Isqrt_isq a :
  -16384 <= a <= 16384 -> Isqrt Make_Isqrt_Table a = Ok (isq a).
Proof.
  intros Ha. unfold Isqrt, isq. destruct (a >=? 0) eqn:E.
  - apply Z.geb_le in E. now rewrite table_load by lia.
  - assert (a < 0) by (destruct (Z.geb_spec a 0); [discriminate | lia]).
    now rewrite table_load by lia.
Qed.

Lemma isq_range a : is_s8 (isq a).
Proof. unfold isq. destruct (a >=? 0); apply s8_range. Qed.

Lemma product_range a b : is_s8 a -> is_s8 b -> -16384 <= a * b <= 16384.
Proof. unfold is_s8. intros Ha Hb. nia. Qed.

Lemma product_range_neg a b : is_s8 a -> is_s8 b -> -16384 <= - a * b <= 16384.
Proof. unfold is_s8. intros Ha Hb. nia. Qed.

Lemma u32_small x : 0 <= x < 4294967296 -> u32 x = x.
Proof. intros H. unfold u32. now apply Z.mod_small. Qed.

(** The loop decodes the pairs that are left, [rest], in place. *)
Lemma decode_loop_pairs n : forall rest pre post base bound idx tmp1 tmp2 fuel,
  length rest = (2 * n)%nat -> Forall is_s8 rest ->
  is_s8 tmp1 -> is_s8 tmp2 ->
  base + idx = Z.of_nat (length pre) -> 0 <= idx ->
  idx + Z.of_nat (length rest) = bound + 2 -> bound + 2 < 4294967296 ->
  (n < fuel)%nat ->
  decode_loop Make_Isqrt_Table fuel (pre ++ rest ++ post) base bound idx
    tmp1 tmp2
  = Ok (pre ++ decode_pairs tmp1 tmp2 rest ++ post,
        fst (last_pair tmp1 tmp2 rest), snd (last_pair tmp1 tmp2 rest)).
Proof.
  induction n as [|n IH];
    intros rest pre post base bound idx tmp1 tmp2 fuel
           Hlen Hs8 H1 H2 Hbase Hidx Hbound Hmax Hfuel.
  - destruct rest; [|cbn in Hlen; lia]. destruct fuel as [|fuel]; [lia|].
    cbn [decode_loop]. cbn in Hbound.
    destruct (Z.leb_spec idx bound); [lia|]. reflexivity.
  - destruct rest as [|a [|b rest]]; try (cbn in Hlen; lia).
    destruct fuel as [|fuel]; [lia|]. cbn [decode_loop].
    cbn [length] in Hbound.
    destruct (Z.leb_spec idx bound); [|lia].
    inversion Hs8 as [|? ? Ha Hs8']; subst.
    inversion Hs8' as [|? ? Hb Hrest]; subst.
    rewrite !u32_small by lia.
    cbn [app]. rewrite load_app by lia. cbn [bind].
    rewrite load_app1 by lia. cbn [bind].
    rewrite Isqrt_isq by now apply product_range. cbn [bind].
    rewrite store_app by lia. cbn [bind].
    rewrite load_app1 by lia. cbn [bind].
    rewrite Isqrt_isq by now apply product_range_neg. cbn [bind].
    rewrite store_app1 by lia. cbn [bind].
    change (pre ++ isq (a * tmp1) :: isq (- b * tmp2) :: rest ++ post)
      with (pre ++ [isq (a * tmp1); isq (- b * tmp2)] ++ rest ++ post).
    rewrite app_assoc.
    rewrite (IH rest (pre ++ [isq (a * tmp1); isq (- b * tmp2)]) post
               base bound (idx + 2) a b fuel); try assumption; try lia.
    + cbn [decode_pairs last_pair]. now rewrite <- app_assoc.
    + cbn [length] in Hlen. lia.
    + rewrite length_app. cbn [length]. lia.
Qed.

(** [De_Diffcode] on the [length rest] symbols that follow [pre]. *)
Lemma De_Diffcode_pairs_at n rest pre post prev_i prev_q :
  length rest = (2 * S n)%nat -> Forall is_s8 rest ->
  is_s8 prev_i -> is_s8 prev_q ->
  Z.of_nat (length rest) < 4294967296 ->
  De_Diffcode Make_Isqrt_Table (pre ++ rest ++ post)
    (Z.of_nat (length pre)) (Z.of_nat (length rest)) (prev_i, prev_q)
  = Ok (pre ++ decode_pairs prev_i prev_q rest ++ post,
        last_pair prev_i prev_q rest).
Proof.
  intros Hlen Hs8 H1 H2 Hmax.
  destruct rest as [|a [|b rest]]; try (cbn in Hlen; lia).
  inversion Hs8 as [|? ? Ha Hs8']; subst.
  inversion Hs8' as [|? ? Hb Hrest]; subst.
  unfold De_Diffcode. cbn [app].
  rewrite load_app by lia. cbn [bind].
  rewrite load_app1 by lia. cbn [bind].
  rewrite Isqrt_isq by now apply product_range. cbn [bind].
  rewrite store_app by lia. cbn [bind].
  rewrite load_app1 by lia. cbn [bind].
  rewrite Isqrt_isq by now apply product_range_neg. cbn [bind].
  rewrite store_app1 by lia. cbn [bind].
  cbn [length] in *.
  rewrite u32_small by lia.
  change (pre ++ isq (a * prev_i) :: isq (- b * prev_q) :: rest ++ post)
    with (pre ++ [isq (a * prev_i); isq (- b * prev_q)] ++ rest ++ post).
  rewrite app_assoc.
  rewrite (decode_loop_pairs n rest); try assumption; try lia.
  - cbn [bind decode_pairs last_pair]. rewrite <- app_assoc.
    now destruct (last_pair a b rest).
  - rewrite length_app. cbn [length]. lia.
Qed.

End DiffcodeFacts.

Module DiffcodeClaims.
Import SqrtTable SqrtTableFacts Diffcode DiffcodeSpec DiffcodeFacts Samples.

Lemma length_decode_pairs n : forall l prev_i prev_q,
  length l = (2 * n)%nat -> length (decode_pairs prev_i prev_q l) = length l.
Proof.
  induction n as [|n IH]; intros l prev_i prev_q Hlen.
  - destruct l; [reflexivity | cbn in Hlen; lia].
  - destruct l as [|a [|b rest]]; try (cbn in Hlen; lia).
    cbn [decode_pairs length]. rewrite (IH rest); [reflexivity|].
    cbn [length] in Hlen. lia.
Qed.

Lemma decode_pairs_app n : forall l1 l2 prev_i prev_q,
  length l1 = (2 * n)%nat ->
  decode_pairs prev_i prev_q (l1 ++ l2)
  = decode_pairs prev_i prev_q l1
    ++ decode_pairs (fst (last_pair prev_i prev_q l1))
         (snd (last_pair prev_i prev_q l1)) l2
  /\ last_pair prev_i prev_q (l1 ++ l2)
     = last_pair (fst (last_pair prev_i prev_q l1))
         (snd (last_pair prev_i prev_q l1)) l2.
Proof.
  induction n as [|n IH]; intros l1 l2 prev_i prev_q Hlen.
  - destruct l1; [split; reflexivity | cbn in Hlen; lia].
  - destruct l1 as [|a [|b rest]]; try (cbn in Hlen; lia).
    cbn [length] in Hlen.
    destruct (IH rest l2 a b ltac:(lia)) as (Hd & Hl).
    cbn [app decode_pairs last_pair]. rewrite Hd, Hl. split; reflexivity.
Qed.

Lemma nth_s8 l : Forall is_s8 l -> forall k, is_s8 (nth k l 0).
Proof.
  induction 1 as [|x l Hx Hl IH]; intros [|k]; cbn;
    try (unfold is_s8; lia); [exact Hx | apply IH].
Qed.

Lemma decode_pairs_nth n : forall l prev_i prev_q k,
  length l = (2 * n)%nat -> (1 <= k)%nat -> (2 * k + 1 < length l)%nat ->
  nth (2 * k) (decode_pairs prev_i prev_q l) 0
  = isq (nth (2 * k) l 0 * nth (2 * k - 2) l 0)
  /\ nth (2 * k + 1) (decode_pairs prev_i prev_q l) 0
     = isq (- nth (2 * k + 1) l 0 * nth (2 * k - 1) l 0).
Proof.
  induction n as [|n IH]; intros l prev_i prev_q k Hlen Hk Hin.
  - destruct l; cbn in *; lia.
  - destruct l as [|a [|b rest]]; try (cbn in Hlen; lia).
    cbn [length] in Hlen, Hin. destruct k as [|k]; [lia|].
    replace (2 * S k)%nat with (S (S (2 * k))) by lia.
    replace (S (S (2 * k)) + 1)%nat with (S (S (2 * k + 1))) by lia.
    replace (S (S (2 * k)) - 2)%nat with (2 * k)%nat by lia.
    replace (S (S (2 * k)) - 1)%nat with (S (2 * k)) by lia.
    cbn [decode_pairs nth].
    destruct k as [|k].
    + destruct rest as [|c [|d rest]]; cbn [length] in Hin; try lia.
      split; reflexivity.
    + destruct (IH rest a b (S k) ltac:(lia) ltac:(lia) ltac:(lia)) as (H0 & H1).
      rewrite H0, H1.
      replace (2 * S k - 2)%nat with (2 * k)%nat by lia.
      replace (2 * S k - 1)%nat with (S (2 * k)) by lia.
      replace (2 * S k)%nat with (S (S (2 * k))) by lia.
      replace (S (S (2 * k)) + 1)%nat with (S (S (S (2 * k)))) by lia.
      split; reflexivity.
Qed.

Lemma last_pair_nth n : forall l prev_i prev_q,
  length l = (2 * S n)%nat ->
  last_pair prev_i prev_q l
  = (nth (length l - 2) l 0, nth (length l - 1) l 0).
Proof.
  induction n as [|n IH]; intros l prev_i prev_q Hlen.
  - destruct l as [|a [|b [|c rest]]]; try (cbn in Hlen; lia). reflexivity.
  - destruct l as [|a [|b rest]]; try (cbn in Hlen; lia).
    cbn [length] in Hlen. cbn [last_pair]. rewrite (IH rest) by lia.
    destruct rest as [|c [|d rest]]; try (cbn in Hlen; lia).
    cbn [length]. 
    replace (S (S (S (S (length rest)))) - 2)%nat with (S (S (length rest))) by lia.
    replace (S (S (S (S (length rest)))) - 1)%nat with (S (S (S (length rest)))) by lia.
    replace (S (S (length rest)) - 2)%nat with (length rest) by lia.
    replace (S (S (length rest)) - 1)%nat with (S (length rest)) by lia.
    reflexivity.
Qed.

Lemma even_length_half (l : list Z) :
  Nat.even (length l) = true -> (2 <= length l)%nat ->
  exists n, length l = (2 * S n)%nat.
Proof.
  intros He Hl. apply Nat.even_spec in He. destruct He as (m & Hm).
  destruct m as [|m]; [lia|]. now exists m.
Qed.

(** [De_Diffcode] on a whole buffer. *)
Lemma De_Diffcode_whole buff prev_i prev_q :
  Forall is_s8 buff -> is_s8 prev_i -> is_s8 prev_q ->
  (2 <= length buff)%nat -> Nat.even (length buff) = true ->
  Z.of_nat (length buff) < 4294967296 ->
  De_Diffcode Make_Isqrt_Table buff 0 (Z.of_nat (length buff)) (prev_i, prev_q)
  = Ok (decode_pairs prev_i prev_q buff, last_pair prev_i prev_q buff).
Proof.
  intros Hs8 H1 H2 Hlen Heven Hmax.
  destruct (even_length_half buff Heven Hlen) as (n & Hn).
  pose proof (De_Diffcode_pairs_at n buff [] [] prev_i prev_q Hn Hs8 H1 H2 Hmax)
    as H.
  cbn [app length] in H. rewrite !app_nil_r in H. exact H.
Qed.

(** The sample decoded on a first call.  The fifth symbol is
    [Isqrt(-128 * -128)], which comes out as -128 (see [Isqrt_16384]). *)
Example De_Diffcode_sample :
  De_Diffcode Make_Isqrt_Table sample 0 6 (0, 0)
  = Ok ([0; 0; -25; -29; -128; 127], (-128, 127)).
Proof.
  change 6 with (Z.of_nat (length sample)).
  rewrite De_Diffcode_whole.
  - reflexivity.
  - repeat constructor; unfold is_s8; lia.
  - unfold is_s8; lia.
  - unfold is_s8; lia.
  - cbn; lia.
  - reflexivity.
  - cbn; lia.
Qed.

(** C4.  On a buffer of 8-bit signed symbols of even length at least 2 and
    a carried pair of 8-bit signed values, [De_Diffcode] returns; the first
    output pair is [Isqrt(in[0] * prev_i)], [Isqrt(-in[1] * prev_q)], every
    later pair [k] is [Isqrt(in[2k] * in[2k-2])],
    [Isqrt(-in[2k+1] * in[2k-1])] on the raw input, and the pair carried to
    the next call is the last raw input pair. *)
Theorem De_Diffcode_decodes (buff : list Z) (prev_i prev_q : Z) :
  Forall is_s8 buff -> is_s8 prev_i -> is_s8 prev_q ->
  (2 <= length buff)%nat -> Nat.even (length buff) = true ->
  Z.of_nat (length buff) < 4294967296 ->
  exists out,
    Diffcode.De_Diffcode SqrtTable.Make_Isqrt_Table buff 0
      (Z.of_nat (length buff)) (prev_i, prev_q)
    = Ok (out, (nth (length buff - 2) buff 0, nth (length buff - 1) buff 0)) /\
    length out = length buff /\
    SqrtTable.Isqrt SqrtTable.Make_Isqrt_Table (nth 0 buff 0 * prev_i)
      = Ok (nth 0 out 0) /\
    SqrtTable.Isqrt SqrtTable.Make_Isqrt_Table (- nth 1 buff 0 * prev_q)
      = Ok (nth 1 out 0) /\
    forall k, (1 <= k)%nat -> (2 * k + 1 < length buff)%nat ->
      SqrtTable.Isqrt SqrtTable.Make_Isqrt_Table
        (nth (2 * k) buff 0 * nth (2 * k - 2) buff 0)
        = Ok (nth (2 * k) out 0) /\
      SqrtTable.Isqrt SqrtTable.Make_Isqrt_Table
        (- nth (2 * k + 1) buff 0 * nth (2 * k - 1) buff 0)
        = Ok (nth (2 * k + 1) out 0).
Proof.
  intros Hs8 H1 H2 Hlen Heven Hmax.
  destruct (even_length_half buff Heven Hlen) as (n & Hn).
  exists (decode_pairs prev_i prev_q buff).
  rewrite De_Diffcode_whole by assumption.
  rewrite (last_pair_nth n) by exact Hn.
  split; [reflexivity|].
  split; [apply (length_decode_pairs (S n)); exact Hn|].
  pose proof (nth_s8 buff Hs8) as Hnth.
  split; [|split].
  - rewrite Isqrt_isq by (apply product_range; [apply Hnth | exact H1]).
    destruct buff as [|a [|b rest]]; try (cbn in Hn; lia). reflexivity.
  - rewrite Isqrt_isq by (apply product_range_neg; [apply Hnth | exact H2]).
    destruct buff as [|a [|b rest]]; try (cbn in Hn; lia). reflexivity.
  - intros k Hk Hin.
    destruct (decode_pairs_nth (S n) buff prev_i prev_q k Hn Hk Hin) as (E0 & E1).
    rewrite E0, E1.
    rewrite Isqrt_isq by (apply product_range; apply Hnth).
    rewrite Isqrt_isq by (apply product_range_neg; apply Hnth).
    split; reflexivity.
Qed.

Lemma sample_s8 : Forall is_s8 sample.
Proof. repeat constructor; unfold is_s8; lia. Qed.

Lemma De_Diffcode_decodes_witness :
  exists out,
    Diffcode.De_Diffcode SqrtTable.Make_Isqrt_Table sample 0 6 (3, -128)
    = Ok (out, (-128, 127)) /\
    length out = 6%nat /\
    SqrtTable.Isqrt SqrtTable.Make_Isqrt_Table (5 * 3) = Ok (nth 0 out 0) /\
    SqrtTable.Isqrt SqrtTable.Make_Isqrt_Table (- -7 * -128) = Ok (nth 1 out 0) /\
    forall k, (1 <= k)%nat -> (2 * k + 1 < 6)%nat ->
      SqrtTable.Isqrt SqrtTable.Make_Isqrt_Table
        (nth (2 * k) sample 0 * nth (2 * k - 2) sample 0)
        = Ok (nth (2 * k) out 0) /\
      SqrtTable.Isqrt SqrtTable.Make_Isqrt_Table
        (- nth (2 * k + 1) sample 0 * nth (2 * k - 1) sample 0)
        = Ok (nth (2 * k + 1) out 0).
Proof.
  apply (De_Diffcode_decodes sample 3 (-128)).
  - exact sample_s8.
  - unfold is_s8; lia.
  - unfold is_s8; lia.
  - cbn; lia.
  - reflexivity.
  - cbn; lia.
Defined.

(** C8.  A stream of 8-bit signed symbols split into two non-empty parts
    of even length: decoding the first part and then the second, with the
    pair carried from the first call to the second, leaves the buffer and
    the carried pair that decoding the whole stream in one call leaves. *)
Theorem De_Diffcode_split (l1 l2 : list Z) (prev_i prev_q : Z) :
  Forall is_s8 (l1 ++ l2) -> is_s8 prev_i -> is_s8 prev_q ->
  (2 <= length l1)%nat -> Nat.even (length l1) = true ->
  (2 <= length l2)%nat -> Nat.even (length l2) = true ->
  Z.of_nat (length (l1 ++ l2)) < 4294967296 ->
  exists out carried,
    Diffcode.De_Diffcode SqrtTable.Make_Isqrt_Table (l1 ++ l2) 0
      (Z.of_nat (length (l1 ++ l2))) (prev_i, prev_q) = Ok (out, carried) /\
    ('(buff1, carried1) <-
       Diffcode.De_Diffcode SqrtTable.Make_Isqrt_Table (l1 ++ l2) 0
         (Z.of_nat (length l1)) (prev_i, prev_q) ;;
     Diffcode.De_Diffcode SqrtTable.Make_Isqrt_Table buff1
       (Z.of_nat (length l1)) (Z.of_nat (length l2)) carried1)
    = Ok (out, carried).
Proof.
  intros Hs8 H1 H2 Hlen1 He1 Hlen2 He2 Hmax.
  destruct (even_length_half l1 He1 Hlen1) as (n1 & Hn1).
  destruct (even_length_half l2 He2 Hlen2) as (n2 & Hn2).
  apply Forall_app in Hs8. destruct Hs8 as (Hs1 & Hs2).
  rewrite length_app in Hmax.
  exists (decode_pairs prev_i prev_q (l1 ++ l2)),
         (last_pair prev_i prev_q (l1 ++ l2)).
  split.
  - apply De_Diffcode_whole; try assumption.
    + now apply Forall_app.
    + rewrite length_app. lia.
    + rewrite length_app, Nat.even_add, He1, He2. reflexivity.
    + rewrite length_app. lia.
  - pose proof (De_Diffcode_pairs_at n1 l1 [] l2 prev_i prev_q Hn1 Hs1 H1 H2
                  ltac:(lia)) as Hfirst.
    cbn [app length Z.of_nat] in Hfirst. rewrite Hfirst. cbn [bind].
    destruct (decode_pairs_app (S n1) l1 l2 prev_i prev_q Hn1) as (Hd & Hl).
    rewrite Hd, Hl.
    pose proof (nth_s8 l1 Hs1) as Hnth.
    rewrite (last_pair_nth n1 l1) by exact Hn1. cbn [fst snd].
    pose proof (De_Diffcode_pairs_at n2 l2 (decode_pairs prev_i prev_q l1) []
                  (nth (length l1 - 2) l1 0) (nth (length l1 - 1) l1 0)
                  Hn2 Hs2 (Hnth _) (Hnth _) ltac:(lia)) as Hsecond.
    rewrite (length_decode_pairs (S n1)) in Hsecond by exact Hn1.
    rewrite !app_nil_r in Hsecond. exact Hsecond.
Qed.

Lemma De_Diffcode_split_witness :
  exists out carried,
    Diffcode.De_Diffcode SqrtTable.Make_Isqrt_Table ([5; -7] ++ [-128; -128; -128; 127]) 0
      (Z.of_nat (length ([5; -7] ++ [-128; -128; -128; 127]))) (3, -128)
      = Ok (out, carried) /\
    ('(buff1, carried1) <-
       Diffcode.De_Diffcode SqrtTable.Make_Isqrt_Table
         ([5; -7] ++ [-128; -128; -128; 127]) 0
         (Z.of_nat (length [5; -7])) (3, -128) ;;
     Diffcode.De_Diffcode SqrtTable.Make_Isqrt_Table buff1
       (Z.of_nat (length [5; -7]))
       (Z.of_nat (length [-128; -128; -128; 127])) carried1)
    = Ok (out, carried).
Proof.
  apply (De_Diffcode_split [5; -7] [-128; -128; -128; 127] 3 (-128)).
  - exact sample_s8.
  - unfold is_s8; lia.
  - unfold is_s8; lia.
  - cbn; lia.
  - reflexivity.
  - cbn; lia.
  - reflexivity.
  - cbn; lia.
Defined.

(** C10.  With the carried pair still (0, 0), the first output pair is
    (0, 0) whatever the buffer holds. *)
Theorem De_Diffcode_first_call (buff : list Z) :
  Forall is_s8 buff ->
  (2 <= length buff)%nat -> Nat.even (length buff) = true ->
  Z.of_nat (length buff) < 4294967296 ->
  exists out carried,
    Diffcode.De_Diffcode SqrtTable.Make_Isqrt_Table buff 0
      (Z.of_nat (length buff)) (0, 0) = Ok (out, carried) /\
    length out = length buff /\
    nth 0 out 0 = 0 /\ nth 1 out 0 = 0.
Proof.
  intros Hs8 Hlen Heven Hmax.
  destruct (even_length_half buff Heven Hlen) as (n & Hn).
  exists (decode_pairs 0 0 buff), (last_pair 0 0 buff).
  split; [apply De_Diffcode_whole; try assumption; unfold is_s8; lia|].
  split; [apply (length_decode_pairs (S n)); exact Hn|].
  destruct buff as [|a [|b rest]]; try (cbn in Hn; lia).
  cbn [decode_pairs nth]. rewrite !Z.mul_0_r. split; reflexivity.
Qed.

Lemma De_Diffcode_first_call_witness :
  exists out carried,
    Diffcode.De_Diffcode SqrtTable.Make_Isqrt_Table sample 0
      (Z.of_nat (length sample)) (0, 0) = Ok (out, carried) /\
    length out = length sample /\
    nth 0 out 0 = 0 /\ nth 1 out 0 = 0.
Proof.
  apply (De_Diffcode_first_call sample).
  - exact sample_s8.
  - cbn; lia.
  - reflexivity.
  - cbn; lia.
Defined.

End DiffcodeClaims.

Module TableSafety.
Import SqrtTable SqrtTableFacts Diffcode DiffcodeSpec DiffcodeFacts DiffcodeClaims Samples.

Lemma table_safe_bind {A B : Type} (m : res A) (k : A -> res B) :
  table_safe m -> (forall a, m = Ok a -> table_safe (k a)) ->
  table_safe (bind m k).
Proof.
  intros Hm Hk. destruct m as [a | r i |]; cbn [bind].
  - now apply Hk.
  - exact Hm.
  - reflexivity.
Qed.

Lemma load_inv r buf i v :
  load r buf i = Ok v ->
  0 <= i < Z.of_nat (length buf) /\ v = nth (Z.to_nat i) buf 0.
Proof.
  unfold load. destruct (in_bounds buf i) eqn:E; [|discriminate].
  intros [= <-]. apply in_bounds_iff in E. now split.
Qed.

Lemma table_safe_load buf i : table_safe (load SymBuf buf i).
Proof. unfold load. now destruct (in_bounds buf i). Qed.

Lemma table_safe_store buf i v : table_safe (store SymBuf buf i v).
Proof. unfold store. now destruct (in_bounds buf i). Qed.

Lemma load_s8 buf i v : Forall is_s8 buf -> load SymBuf buf i = Ok v -> is_s8 v.
Proof. intros Hs8 H. apply load_inv in H as (_ & ->). now apply nth_s8. Qed.

Lemma upd_s8 buf : forall n v,
  Forall is_s8 buf -> is_s8 v -> Forall is_s8 (upd buf n v).
Proof.
  induction buf as [|h t IH]; intros [|n] v Hs8 Hv; cbn; try assumption.
  - inversion Hs8; subst. now constructor.
  - inversion Hs8; subst. constructor; [assumption | now apply IH].
Qed.

Lemma store_s8 buf i v buf' :
  Forall is_s8 buf -> is_s8 v -> store SymBuf buf i v = Ok buf' ->
  Forall is_s8 buf'.
Proof.
  unfold store. destruct (in_bounds buf i); [|discriminate].
  intros Hs8 Hv [= <-]. now apply upd_s8.
Qed.

Lemma Isqrt_inv a r :
  -16384 <= a <= 16384 -> Isqrt Make_Isqrt_Table a = Ok r -> is_s8 r.
Proof. intros Ha. rewrite Isqrt_isq by exact Ha. intros [= <-]. apply isq_range. Qed.

Lemma table_safe_Isqrt a :
  -16384 <= a <= 16384 -> table_safe (Isqrt Make_Isqrt_Table a).
Proof. intros Ha. now rewrite Isqrt_isq by exact Ha. Qed.

(** Outside the table an access is a fault. *)
Lemma Isqrt_fault a :
  ~ -16384 <= a <= 16384 ->
  faults_in IsqrtTable (Isqrt Make_Isqrt_Table a) = true.
Proof.
  intros Ha. unfold Isqrt. destruct (Z.geb_spec a 0).
  - now rewrite table_load_fault by lia.
  - now rewrite table_load_fault by lia.
Qed.

Lemma table_safe_loop fuel : forall buf base bound idx tmp1 tmp2,
  Forall is_s8 buf -> is_s8 tmp1 -> is_s8 tmp2 ->
  table_safe (decode_loop Make_Isqrt_Table fuel buf base bound idx tmp1 tmp2).
Proof.
  induction fuel as [|fuel IH]; intros buf base bound idx tmp1 tmp2 Hs8 H1 H2;
    cbn [decode_loop]; [reflexivity|].
  destruct (idx <=? bound); [|reflexivity].
  apply table_safe_bind; [apply table_safe_load | intros x Hx].
  apply table_safe_bind; [apply table_safe_load | intros y Hy].
  apply table_safe_bind; [apply table_safe_load | intros b0 Hb0].
  pose proof (load_s8 _ _ _ Hs8 Hx) as Sx.
  pose proof (load_s8 _ _ _ Hs8 Hy) as Sy.
  pose proof (load_s8 _ _ _ Hs8 Hb0) as Sb0.
  apply table_safe_bind;
    [apply table_safe_Isqrt; now apply product_range | intros r0 Hr0].
  apply Isqrt_inv in Hr0; [|now apply product_range].
  apply table_safe_bind; [apply table_safe_store | intros buf1 Hbuf1].
  pose proof (store_s8 _ _ _ _ Hs8 Hr0 Hbuf1) as Hs81.
  apply table_safe_bind; [apply table_safe_load | intros b1 Hb1].
  pose proof (load_s8 _ _ _ Hs81 Hb1) as Sb1.
  apply table_safe_bind;
    [apply table_safe_Isqrt; now apply product_range_neg | intros r1 Hr1].
  apply Isqrt_inv in Hr1; [|now apply product_range_neg].
  apply table_safe_bind; [apply table_safe_store | intros buf2 Hbuf2].
  pose proof (store_s8 _ _ _ _ Hs81 Hr1 Hbuf2) as Hs82.
  now apply IH.
Qed.

(** C9.  Whatever the position and the length handed to [De_Diffcode], on
    a buffer of 8-bit signed symbols and a carried pair of 8-bit signed
    values (the initial pair (0, 0) is one) no run reads the square root
    table outside [isqrt_table[0 .. 16384]]; and [Isqrt] does fault on any
    argument that would make it read outside. *)
Theorem De_Diffcode_table_safe (buf : list Z) (base length prev_i prev_q : Z) :
  Forall is_s8 buf -> is_s8 prev_i -> is_s8 prev_q ->
  faults_in IsqrtTable
    (Diffcode.De_Diffcode SqrtTable.Make_Isqrt_Table buf base length
       (prev_i, prev_q)) = false
  /\ (forall a, ~ -16384 <= a <= 16384 ->
        faults_in IsqrtTable (SqrtTable.Isqrt SqrtTable.Make_Isqrt_Table a)
        = true).
Proof.
  intros Hs8 H1 H2. split; [|exact Isqrt_fault].
  change (table_safe (De_Diffcode Make_Isqrt_Table buf base length
                        (prev_i, prev_q))).
  unfold De_Diffcode.
  apply table_safe_bind; [apply table_safe_load | intros tmp1 Ht1].
  apply table_safe_bind; [apply table_safe_load | intros tmp2 Ht2].
  apply table_safe_bind; [apply table_safe_load | intros b0 Hb0].
  pose proof (load_s8 _ _ _ Hs8 Ht1) as St1.
  pose proof (load_s8 _ _ _ Hs8 Ht2) as St2.
  pose proof (load_s8 _ _ _ Hs8 Hb0) as Sb0.
  apply table_safe_bind;
    [apply table_safe_Isqrt; now apply product_range | intros r0 Hr0].
  apply Isqrt_inv in Hr0; [|now apply product_range].
  apply table_safe_bind; [apply table_safe_store | intros buf1 Hbuf1].
  pose proof (store_s8 _ _ _ _ Hs8 Hr0 Hbuf1) as Hs81.
  apply table_safe_bind; [apply table_safe_load | intros b1 Hb1].
  pose proof (load_s8 _ _ _ Hs81 Hb1) as Sb1.
  apply table_safe_bind;
    [apply table_safe_Isqrt; now apply product_range_neg | intros r1 Hr1].
  apply Isqrt_inv in Hr1; [|now apply product_range_neg].
  apply table_safe_bind; [apply table_safe_store | intros buf2 Hbuf2].
  pose proof (store_s8 _ _ _ _ Hs81 Hr1 Hbuf2) as Hs82.
  apply table_safe_bind.
  - now apply table_safe_loop.
  - intros [[buf3 t1] t2] _. reflexivity.
Qed.

Lemma De_Diffcode_table_safe_witness :
  faults_in IsqrtTable
    (Diffcode.De_Diffcode SqrtTable.Make_Isqrt_Table sample 0 6 (0, 0)) = false
  /\ (forall a, ~ -16384 <= a <= 16384 ->
        faults_in IsqrtTable (SqrtTable.Isqrt SqrtTable.Make_Isqrt_Table a)
        = true).
Proof.
  apply (De_Diffcode_table_safe sample 0 6 0 0).
  - exact sample_s8.
  - unfold is_s8; lia.
  - unfold is_s8; lia.
Defined.

End TableSafety.

(** * Part IV: further properties of the code *)

Module SyncMore.
Import Sync SyncSpec SyncFacts Resync ResyncSpec.

Lemma u8_small x : 0 <= x < 256 -> u8 x = x.
Proof. intros H. unfold u8. now apply Z.mod_small. Qed.

(** The byte loop reads [data[i .. i + n)] and nothing else. *)
Lemma Byte_loop_ext p q n : forall i result,
  0 <= i -> i + Z.of_nat n <= 256 ->
  (forall k, i <= k < i + Z.of_nat n -> p k = q k) ->
  Byte_loop p n i result = Byte_loop q n i result.
Proof.
  induction n as [|n IH]; intros i result Hi Hn H; cbn [Byte_loop];
    [reflexivity|].
  rewrite (H i) by lia. destruct (q i) as [d | |]; cbn [bind]; try reflexivity.
  destruct n as [|n']; [reflexivity|].
  rewrite (u8_small (i + 1)) by lia. apply IH; try lia.
  intros k Hk. apply H. lia.
Qed.

Lemma Byte_at_Offset_ext p q :
  (forall k, 0 <= k < 8 -> p k = q k) -> Byte_at_Offset p = Byte_at_Offset q.
Proof. intros H. apply Byte_loop_ext; try lia. exact H. Qed.

(** It stops at the first symbol it cannot read. *)
Lemma Byte_loop_fault p rg x f n : forall i result,
  0 <= i -> i + Z.of_nat n <= 256 -> i <= f < i + Z.of_nat n ->
  (forall k, i <= k < f -> exists v, p k = Ok v) ->
  p f = Fault rg x ->
  Byte_loop p n i result = Fault rg x.
Proof.
  induction n as [|n IH]; intros i result Hi Hn Hf Hok Hbad; [lia|].
  cbn [Byte_loop]. destruct (Z.eq_dec i f) as [-> | Hne].
  - now rewrite Hbad.
  - destruct (Hok i ltac:(lia)) as (v & Hv). rewrite Hv. cbn [bind].
    rewrite (u8_small (i + 1)) by lia. apply IH; try lia; [|exact Hbad].
    intros k Hk. apply Hok. lia.
Qed.

(** X1.  On eight readable symbols [Byte_at_Offset] returns a byte whose
    bit [k] is set exactly when symbol [k] is below 128. *)
Theorem Byte_at_Offset_bits (m : Z -> Z) (a : Z) :
  exists b,
    Sync.Byte_at_Offset (total m @+ a) = Ok b /\ 0 <= b < 256 /\
    forall k, 0 <= k < 8 -> Z.testbit b k = (m (a + k) <? 128).
Proof.
  exists (hard_byte m a). split; [|split].
  - apply Byte_at_Offset_at, reads_total.
  - apply hard_byte_range.
  - apply hard_byte_testbit.
Qed.

Lemma src_at_in o buf i :
  0 <= i < Z.of_nat (length buf) ->
  src_at o buf i = Ok (nth (Z.to_nat i) buf 0).
Proof. intros H. unfold src_at. apply in_bounds_iff in H. now rewrite H. Qed.

Lemma src_at_out buf i :
  ~ 0 <= i < Z.of_nat (length buf) -> src_at strict buf i = Fault SrcBuf i.
Proof.
  intros H. unfold src_at, strict.
  destruct (in_bounds buf i) eqn:E; [|reflexivity].
  apply in_bounds_iff in E. contradiction.
Qed.

(** The symbols of a buffer, as a function of the index. *)
Lemma Byte_at_Offset_in o buf a :
  0 <= a -> a + 8 <= Z.of_nat (length buf) ->
  Byte_at_Offset (src_at o buf @+ a)
  = Ok (hard_byte (fun i => nth (Z.to_nat i) buf 0) a).
Proof.
  intros Ha Hroom.
  rewrite (Byte_at_Offset_ext _ (total (fun i => nth (Z.to_nat i) buf 0) @+ a)).
  - apply Byte_at_Offset_at, reads_total.
  - intros k Hk. unfold ptr_add, total. apply src_at_in. lia.
Qed.

(** X2.  Bounds of [Byte_at_Offset] on a checked buffer: with 8 symbols of
    room from [a] it returns; with fewer it stops at the first index that
    does not exist. *)
Theorem Byte_at_Offset_bounds (src_buf : list Z) (a : Z) :
  0 <= a ->
  (a + 8 <= Z.of_nat (length src_buf) ->
   Sync.Byte_at_Offset (Resync.src_at Resync.strict src_buf @+ a)
   = Ok (SyncSpec.hard_byte (fun i => nth (Z.to_nat i) src_buf 0) a)) /\
  (Z.of_nat (length src_buf) < a + 8 ->
   Sync.Byte_at_Offset (Resync.src_at Resync.strict src_buf @+ a)
   = Fault SrcBuf (Z.max a (Z.of_nat (length src_buf)))).
Proof.
  intros Ha. split; [now apply Byte_at_Offset_in|]. intros Hshort.
  set (L := Z.of_nat (length src_buf)) in *.
  unfold Byte_at_Offset.
  apply (Byte_loop_fault _ SrcBuf (Z.max a L) (Z.max a L - a)); try lia.
  - intros k Hk. unfold ptr_add. rewrite src_at_in by (fold L; lia). eauto.
  - unfold ptr_add. replace (a + (Z.max a L - a)) with (Z.max a L) by lia.
    apply src_at_out. fold L. lia.
Qed.

Lemma Byte_at_Offset_bounds_witness :
  (3 + 8 <= Z.of_nat (length [0; 0; 0; 1; 2; 3; 4; 5; 6; 7; 200; 9]) ->
   Sync.Byte_at_Offset
     (Resync.src_at Resync.strict [0; 0; 0; 1; 2; 3; 4; 5; 6; 7; 200; 9] @+ 3)
   = Ok (SyncSpec.hard_byte
           (fun i => nth (Z.to_nat i) [0; 0; 0; 1; 2; 3; 4; 5; 6; 7; 200; 9] 0) 3)) /\
  (Z.of_nat (length [0; 0; 0; 1; 2; 3; 4; 5; 6; 7; 200; 9]) < 3 + 8 ->
   Sync.Byte_at_Offset
     (Resync.src_at Resync.strict [0; 0; 0; 1; 2; 3; 4; 5; 6; 7; 200; 9] @+ 3)
   = Fault SrcBuf
       (Z.max 3 (Z.of_nat (length [0; 0; 0; 1; 2; 3; 4; 5; 6; 7; 200; 9])))).
Proof.
  apply (Byte_at_Offset_bounds [0; 0; 0; 1; 2; 3; 4; 5; 6; 7; 200; 9] 3). lia.
Defined.

(** *** What [Find_Sync] reads *)

Lemma Find_Sync_ahead_ext p q step i sync n : forall j,
  (forall k t, j <= k < j + Z.of_nat n -> 0 <= t < 8 ->
     p (i + k * step + t) = q (i + k * step + t)) ->
  Find_Sync_ahead p step i sync n j = Find_Sync_ahead q step i sync n j.
Proof.
  induction n as [|n IH]; intros j H; cbn [Find_Sync_ahead]; [reflexivity|].
  rewrite (Byte_at_Offset_ext (p @+ (i + j * step)) (q @+ (i + j * step))).
  2:{ intros t Ht. unfold ptr_add. apply H; lia. }
  destruct (Byte_at_Offset (q @+ (i + j * step))) as [b | |]; cbn [bind];
    try reflexivity.
  destruct (negb (sync =? b)); [reflexivity|].
  apply IH. intros k t Hk Ht. apply H; lia.
Qed.

Lemma Find_Sync_scan_ext p q step depth n : forall i sync,
  (forall i' t, i <= i' < i + Z.of_nat n -> 0 <= t < 8 ->
     p (i' + t) = q (i' + t)) ->
  (forall i' k t, i <= i' < i + Z.of_nat n -> 1 <= k <= depth -> 0 <= t < 8 ->
     p (i' + k * step + t) = q (i' + k * step + t)) ->
  Find_Sync_scan p step depth n i sync = Find_Sync_scan q step depth n i sync.
Proof.
  induction n as [|n IH]; intros i sync H0 H1; cbn [Find_Sync_scan];
    [reflexivity|].
  rewrite (Byte_at_Offset_ext (p @+ i) (q @+ i)).
  2:{ intros t Ht. unfold ptr_add. apply H0; lia. }
  destruct (Byte_at_Offset (q @+ i)) as [b | |]; cbn [bind]; try reflexivity.
  rewrite (Find_Sync_ahead_ext p q step i b (Z.to_nat depth) 1).
  2:{ intros k t Hk Ht. apply H1; lia. }
  destruct (Find_Sync_ahead q step i b (Z.to_nat depth) 1) as [r | |];
    cbn [bind]; try reflexivity.
  destruct r; [reflexivity|].
  apply IH.
  - intros i' t Hi' Ht. apply H0; lia.
  - intros i' k t Hi' Hk Ht. apply H1; lia.
Qed.

Lemma Find_Sync_ext p q block_siz step depth sync :
  0 <= step -> 0 <= depth ->
  (forall x, 0 <= x < block_siz + 7 -> p x = q x) ->
  Find_Sync p block_siz step depth sync = Find_Sync q block_siz step depth sync.
Proof.
  intros Hstep Hdepth H. unfold Find_Sync. apply Find_Sync_scan_ext.
  - intros i' t Hi' Ht. apply H. nia.
  - intros i' k t Hi' Hk Ht. apply H. nia.
Qed.

(** X3.  [Find_Sync] reads no symbol outside [data[0 .. block_siz + 6]]:
    two windows that agree there give the same result, faults included. *)
Theorem Find_Sync_window (p q : ptr) (block_siz step depth sync : Z) :
  0 <= step -> 0 <= depth ->
  (forall x, 0 <= x < block_siz + 7 -> p x = q x) ->
  Sync.Find_Sync p block_siz step depth sync
  = Sync.Find_Sync q block_siz step depth sync.
Proof. apply Find_Sync_ext. Qed.

Lemma Find_Sync_window_witness :
  Sync.Find_Sync (Resync.src_at Resync.strict (Samples.frames 6 1)) 400 80 4 0
  = Sync.Find_Sync
      (total (fun i => nth (Z.to_nat i) (Samples.frames 6 1) 0)) 400 80 4 0.
Proof.
  apply (Find_Sync_window
           (Resync.src_at Resync.strict (Samples.frames 6 1))
           (total (fun i => nth (Z.to_nat i) (Samples.frames 6 1) 0))
           400 80 4 0); try lia.
  intros x Hx. apply src_at_in. cbn. lia.
Defined.

(** X4.  With [block_siz + 7] symbols of room from [posn], a bounds-checked
    [Find_Sync] returns, and returns what the search over the buffer's
    symbols returns. *)
Theorem Find_Sync_in_bounds (src_buf : list Z) (posn block_siz step depth sync : Z) :
  0 <= step -> 0 <= depth -> 0 <= posn ->
  posn + block_siz + 7 <= Z.of_nat (length src_buf) ->
  exists result offset sync',
    Sync.Find_Sync (Resync.src_at Resync.strict src_buf @+ posn)
      block_siz step depth sync = Ok (result, offset, sync') /\
    Sync.Find_Sync (total (fun k => nth (Z.to_nat (posn + k)) src_buf 0))
      block_siz step depth sync = Ok (result, offset, sync').
Proof.
  intros Hstep Hdepth Hposn Hroom.
  destruct (Find_Sync_reads
              (total (fun k => nth (Z.to_nat (posn + k)) src_buf 0)) _
              block_siz step depth sync (reads_total _))
    as (r & off & s & Hrun & _).
  exists r, off, s. split; [|exact Hrun]. rewrite <- Hrun.
  apply Find_Sync_ext; try assumption.
  intros x Hx. unfold ptr_add, total. apply src_at_in. lia.
Qed.

Lemma Find_Sync_in_bounds_witness :
  exists result offset sync',
    Sync.Find_Sync (Resync.src_at Resync.strict (Samples.frames 7 1) @+ 80)
      400 80 4 0 = Ok (result, offset, sync') /\
    Sync.Find_Sync
      (total (fun k => nth (Z.to_nat (80 + k)) (Samples.frames 7 1) 0))
      400 80 4 0 = Ok (result, offset, sync').
Proof.
  apply (Find_Sync_in_bounds (Samples.frames 7 1) 80 400 80 4 0); cbn; lia.
Defined.

(** The scan that fails leaves the last candidate in [*sync]. *)
Lemma Find_Sync_scan_last p m step depth n : forall i sync0,
  reads p m ->
  (forall i', i <= i' < i + Z.of_nat n -> ~ train m step depth i') ->
  Find_Sync_scan p step depth n i sync0
  = Ok (false, 0, match n with
                  | O => sync0
                  | S _ => hard_byte m (i + Z.of_nat n - 1)
                  end).
Proof.
  induction n as [|n IH]; intros i sync0 H Hno; [reflexivity|].
  cbn [Find_Sync_scan]. rewrite (Byte_at_Offset_at _ _ _ H). cbn [bind].
  destruct (Find_Sync_ahead_reads p m step i (hard_byte m i)
              (Z.to_nat depth) 1 H) as (b & Hb & Hiff).
  rewrite Hb. cbn [bind]. rewrite <- train_iff in Hiff.
  destruct b.
  - exfalso. apply (Hno i); [lia | now apply Hiff].
  - rewrite IH; [|exact H | intros i' Hi'; apply Hno; lia].
    destruct n as [|n].
    + now replace (i + Z.of_nat 1 - 1) with i by lia.
    + now replace (i + 1 + Z.of_nat (S n) - 1)
        with (i + Z.of_nat (S (S n)) - 1) by lia.
Qed.

(** X5.  What a failed search leaves in the out-parameters: [*offset] is 0,
    and [*sync] is the candidate of the last offset tried, or untouched if
    no offset was tried. *)
Theorem Find_Sync_failure (m : Z -> Z) (block_siz step depth sync0 : Z) :
  (forall i, 0 <= i < block_siz - step * depth ->
     ~ SyncSpec.train m step depth i) ->
  Sync.Find_Sync (total m) block_siz step depth sync0
  = Ok (false, 0,
        if 0 <? block_siz - step * depth
        then SyncSpec.hard_byte m (block_siz - step * depth - 1)
        else sync0).
Proof.
  intros Hno. unfold Find_Sync.
  rewrite (Find_Sync_scan_last (total m) m) by
    (try apply reads_total; intros i' Hi'; apply Hno; lia).
  destruct (Z.ltb_spec 0 (block_siz - step * depth)) as [Hpos | Hneg].
  - destruct (Z.to_nat (block_siz - step * depth)) eqn:E; [lia|].
    rewrite <- E. now rewrite Z2Nat.id by lia.
  - now replace (Z.to_nat (block_siz - step * depth)) with O by lia.
Qed.

Lemma Find_Sync_failure_witness :
  Sync.Find_Sync (total MoreSamples.one_burst) 321 80 4 7
  = Ok (false, 0,
        if 0 <? 321 - 80 * 4
        then SyncSpec.hard_byte MoreSamples.one_burst (321 - 80 * 4 - 1)
        else 7).
Proof.
  apply (Find_Sync_failure MoreSamples.one_burst 321 80 4 7).
  intros i Hi Htrain. assert (i = 0) as -> by lia.
  specialize (Htrain 1 ltac:(lia)). vm_compute in Htrain. discriminate.
Defined.

End SyncMore.

Module ResyncMore.
Import Sync SyncSpec SyncFacts Resync ResyncSpec ResyncFacts StrictRuns.
Import SyncMore ResyncMoreSpec.

Lemma store_inv r buf i v buf' :
  store r buf i v = Ok buf' ->
  0 <= i < Z.of_nat (length buf) /\ buf' = upd buf (Z.to_nat i) v.
Proof.
  unfold store. destruct (in_bounds buf i) eqn:E; [|discriminate].
  intros [= <-]. apply in_bounds_iff in E. now split.
Qed.

(** What [memcpy] leaves: the bytes read, where it wrote them, and the
    rest of the destination as it was. *)
Lemma memcpy_inv p d n : forall dst k dst',
  memcpy dst d p n k = Ok dst' -> 0 <= d + k ->
  length dst' = length dst /\
  (forall t, k <= t < k + Z.of_nat n ->
     p t = Ok (nth (Z.to_nat (d + t)) dst' 0)) /\
  (forall i, 0 <= i -> i < d + k \/ d + k + Z.of_nat n <= i ->
     nth (Z.to_nat i) dst' 0 = nth (Z.to_nat i) dst 0).
Proof.
  induction n as [|n IH]; intros dst k dst' H Hlo; cbn [memcpy] in H.
  - injection H as <-. split; [reflexivity|]. split; [intros t Ht; lia|].
    reflexivity.
  - apply bind_inv in H as (v & Hv & H).
    apply bind_inv in H as (dst1 & Hst & H).
    apply store_inv in Hst as (Hin & ->).
    apply IH in H as (Hlen & Hrd & Hsame); [|lia].
    rewrite length_upd in Hlen. split; [exact Hlen|]. split.
    + intros t Ht. destruct (Z.eq_dec t k) as [-> | Hne].
      * rewrite Hsame by lia. rewrite nth_upd_eq by lia. exact Hv.
      * apply Hrd. lia.
    + intros i Hi Hout. rewrite Hsame by lia. apply nth_upd_neq. lia.
Qed.

Lemma memcpy_in p d n : forall dst k,
  (forall t, k <= t < k + Z.of_nat n -> exists v, p t = Ok v) ->
  0 <= d + k -> d + k + Z.of_nat n <= Z.of_nat (length dst) ->
  exists dst', memcpy dst d p n k = Ok dst'.
Proof.
  induction n as [|n IH]; intros dst k Hp Hlo Hhi; cbn [memcpy].
  - now exists dst.
  - destruct (Hp k ltac:(lia)) as (v & Hv). rewrite Hv. cbn [bind].
    rewrite store_ok by lia. cbn [bind]. apply IH.
    + intros t Ht. apply Hp. lia.
    + lia.
    + rewrite length_upd. lia.
Qed.

Lemma Find_Sync_scan_offset p step depth n : forall i sync0 offset sync,
  Find_Sync_scan p step depth n i sync0 = Ok (true, offset, sync) ->
  i <= offset < i + Z.of_nat n.
Proof.
  induction n as [|n IH]; intros i sync0 offset sync H;
    cbn [Find_Sync_scan] in H; [discriminate|].
  apply bind_inv in H as (s & _ & H).
  apply bind_inv in H as (b & _ & H). destruct b.
  - injection H as <- _. lia.
  - apply IH in H. lia.
Qed.

Section Blocks.

Variable overread : ptr.
Variable src_buf : list Z.

Lemma blocks_weaken cur pos q n posn posn' :
  blocks src_buf cur pos q n posn -> posn <= posn' ->
  blocks src_buf cur pos q n posn'.
Proof.
  intros (Hn & Hq & Hlen & Hb & Htail) Hle.
  split; [exact Hn|]. split; [exact Hq|]. split; [exact Hlen|].
  split; [|exact Htail]. intros b Hbq.
  destruct (Hb b Hbq) as (H0 & H1 & H2 & H3 & H4).
  repeat split; try assumption; lia.
Qed.

Lemma track_blocks sync fuel : forall cur n posn pos q cur' n' posn',
  track overread fuel src_buf (Z.of_nat (length src_buf) - 80) sync cur n posn
    = Ok (cur', n', posn') ->
  0 <= posn -> blocks src_buf cur pos q n posn ->
  posn <= posn' /\ exists pos' q', blocks src_buf cur' pos' q' n' posn'.
Proof.
  induction fuel as [|fuel IH]; intros cur n posn pos q cur' n' posn' H Hposn Hinv;
    cbn [track] in H; [discriminate|].
  destruct (Z.ltb_spec posn (Z.of_nat (length src_buf) - 80)) as [Hlt | Hge].
  2:{ injection H as <- <- <-. split; [lia|]. now exists pos, q. }
  apply bind_inv in H as (ok & _ & H). destruct ok; cbn [negb] in H.
  2:{ injection H as <- <- <-. split; [lia|]. now exists pos, q. }
  apply bind_inv in H as (cur1 & Hcpy & H).
  unfold INTLV_DATA_LEN, INTLV_SYNCDATA in *.
  destruct Hinv as (Hn & Hq & Hlen & Hb & Htail).
  apply memcpy_inv in Hcpy as (Hlen1 & Hrd & Hsame); [|lia].
  apply (IH cur1 (n + 72) (posn + 80)
            (fun b => if b =? q then posn else pos b) (q + 1)) in H.
  - destruct H as (Hle & Hex). split; [lia | exact Hex].
  - lia.
  - split; [lia|]. split; [lia|]. split; [congruence|]. split.
    + intros b Hbq. destruct (Z.eqb_spec b q) as [-> | Hne].
      * split; [lia|]. split; [lia|]. split; [lia|]. split; [intros b' Hb'; lia|].
        intros j Hj. specialize (Hrd j ltac:(lia)).
        unfold ptr_add in Hrd. rewrite src_at_in in Hrd by lia.
        injection Hrd as Hrd. rewrite Hrd. f_equal. lia.
      * destruct (Hb b ltac:(lia)) as (H0 & H1 & H2 & H3 & H4).
        split; [lia|]. split; [lia|]. split; [lia|]. split.
        -- intros b' Hb'. destruct (Z.eqb_spec b' q) as [-> | Hne'];
             [lia | apply H3; lia].
        -- intros j Hj. rewrite Hsame by lia. now apply H4.
    + intros i Hi. rewrite Hsame by lia. apply Htail. lia.
Qed.

Lemma acquire_blocks inner fuel : forall cur n posn sync pos q cur' n',
  acquire overread fuel inner src_buf
    (Z.of_nat (length src_buf) - 320) (Z.of_nat (length src_buf) - 80)
    cur n posn sync = Ok (cur', n') ->
  0 <= posn -> blocks src_buf cur pos q n posn ->
  exists pos' q' posn', blocks src_buf cur' pos' q' n' posn'.
Proof.
  induction fuel as [|fuel IH]; intros cur n posn sync pos q cur' n' H Hposn Hinv;
    cbn [acquire] in H; [discriminate|].
  destruct (posn <? Z.of_nat (length src_buf) - 320).
  2:{ injection H as <- <-. now exists pos, q, posn. }
  apply bind_inv in H as ([[found offset] sync'] & Hfind & H).
  destruct found; cbn [negb] in H.
  - apply bind_inv in H as ([[cur1 n1] posn1] & Htrack & H).
    unfold Find_Sync in Hfind. apply Find_Sync_scan_offset in Hfind.
    apply (track_blocks _ _ _ _ _ pos q) in Htrack as (Hle & pos1 & q1 & Hinv1);
      [| lia | apply (blocks_weaken _ _ _ _ posn); [exact Hinv | lia]].
    apply (IH _ _ _ _ pos1 q1) in H; [exact H | lia | exact Hinv1].
  - apply (IH _ _ _ _ pos q) in H; [exact H | unfold SYNCD_BUF_STEP; lia|].
    apply (blocks_weaken _ _ _ _ posn); [exact Hinv|]. unfold SYNCD_BUF_STEP. lia.
Qed.

End Blocks.

(** X6.  What [Resync_Stream] leaves in the raw buffer: the [resync_siz]
    symbols it reports are whole blocks of 72 symbols, each one the 72
    symbols that followed an 8-symbol slot of the original buffer, taken
    from slots in increasing order and at least 80 symbols apart; the buffer
    keeps its length, and from [resync_siz] on it is unchanged. *)
Theorem Resync_Stream_blocks (overread : ptr) (raw_buf raw_buf' : list Z)
    (resync_siz : Z) :
  Resync.Resync_Stream overread raw_buf = Ok (raw_buf', resync_siz) ->
  length raw_buf' = length raw_buf /\
  (forall i, resync_siz <= i ->
     nth (Z.to_nat i) raw_buf' 0 = nth (Z.to_nat i) raw_buf 0) /\
  exists (pos : Z -> Z) (q : Z),
    resync_siz = 72 * q /\
    forall b, 0 <= b < q ->
      0 <= pos b /\ pos b + 80 < Z.of_nat (length raw_buf) /\
      (forall b', b < b' < q -> pos b + 80 <= pos b') /\
      forall j, 0 <= j < 72 ->
        nth (Z.to_nat (72 * b + j)) raw_buf' 0
        = nth (Z.to_nat (pos b + 8 + j)) raw_buf 0.
Proof.
  intros H. unfold Resync_Stream, SYNCD_BUF_MARGIN, INTLV_SYNCDATA in H.
  apply (acquire_blocks _ _ _ _ _ _ _ _ (fun _ => 0) 0) in H.
  - destruct H as (pos & q & posn & Hn & Hq & Hlen & Hb & Htail).
    split; [exact Hlen|]. split; [exact Htail|].
    exists pos, q. split; [exact Hn|]. intros b Hbq.
    destruct (Hb b Hbq) as (H0 & H1 & H2 & H3 & H4). now repeat split.
  - lia.
  - split; [lia|]. split; [lia|]. split; [reflexivity|].
    split; [intros b Hb; lia | reflexivity].
Qed.

Lemma Resync_Stream_blocks_witness :
  length Samples.frames_resynced = length (Samples.frames 7 1) /\
  (forall i, 432 <= i ->
     nth (Z.to_nat i) Samples.frames_resynced 0
     = nth (Z.to_nat i) (Samples.frames 7 1) 0) /\
  exists (pos : Z -> Z) (q : Z),
    432 = 72 * q /\
    forall b, 0 <= b < q ->
      0 <= pos b /\ pos b + 80 < Z.of_nat (length (Samples.frames 7 1)) /\
      (forall b', b < b' < q -> pos b + 80 <= pos b') /\
      forall j, 0 <= j < 72 ->
        nth (Z.to_nat (72 * b + j)) Samples.frames_resynced 0
        = nth (Z.to_nat (pos b + 8 + j)) (Samples.frames 7 1) 0.
Proof.
  apply (Resync_Stream_blocks Resync.strict (Samples.frames 7 1)
           Samples.frames_resynced 432).
  vm_compute. reflexivity.
Defined.

(** X7.  A buffer of at most 320 symbols is never searched: the length
    reported is 0 and the raw buffer is left as it is, whatever a read past
    the private copy would yield, a fault included. *)
Theorem Resync_Stream_short (overread : ptr) (raw_buf : list Z) :
  Z.of_nat (length raw_buf) <= 320 ->
  Resync.Resync_Stream overread raw_buf = Ok (raw_buf, 0).
Proof.
  intros H. unfold Resync_Stream, SYNCD_BUF_MARGIN. cbn [acquire].
  destruct (Z.ltb_spec 0 (Z.of_nat (length raw_buf) - 320)); [lia|].
  reflexivity.
Qed.

Lemma Resync_Stream_short_witness :
  Resync.Resync_Stream (fun i => Fault SrcBuf i) (repeat 0 320)
  = Ok (repeat 0 320, 0).
Proof.
  apply (Resync_Stream_short (fun i => Fault SrcBuf i) (repeat 0 320)).
  rewrite repeat_length. lia.
Defined.

End ResyncMore.

Module TrackingFacts.
Import Sync SyncSpec SyncFacts Resync ResyncSpec ResyncFacts StrictRuns.
Import SyncMore ResyncMoreSpec ResyncMore.

Lemma look_ahead_reads o src_buf m posn limit2 sync n : forall i,
  reads (src_at o src_buf) m ->
  exists ok,
    look_ahead o src_buf posn limit2 sync n i = Ok ok /\
    (ok = true <->
     exists k, i <= k < i + Z.of_nat n /\ posn + k * 80 < limit2 /\
               hard_byte m (posn + k * 80) = sync).
Proof.
  induction n as [|n IH]; intros i H; cbn [look_ahead].
  - exists false. split; [reflexivity|]. split; [discriminate|].
    intros (k & Hk & _). lia.
  - unfold INTLV_SYNCDATA.
    destruct (IH (i + 1) H) as (ok & Hrun & Hiff).
    destruct (Z.ltb_spec (posn + i * 80) limit2) as [Hlt | Hge].
    + rewrite (Byte_at_Offset_at _ _ _ H). cbn [bind].
      destruct (Z.eqb_spec sync (hard_byte m (posn + i * 80))) as [E | E].
      * exists true. split; [reflexivity|]. split; [|reflexivity].
        intros _. exists i. split; [lia|]. split; [lia | now symmetry].
      * exists ok. split; [exact Hrun|]. rewrite Hiff.
        split; intros (k & Hk & Hlim & Hb).
        -- exists k. repeat split; try lia; assumption.
        -- exists k. split; [|now split].
           destruct (Z.eq_dec k i) as [-> | Hne]; [|lia].
           exfalso. apply E. now symmetry.
    + exists ok. split; [exact Hrun|]. rewrite Hiff.
      split; intros (k & Hk & Hlim & Hb).
      * exists k. repeat split; try lia; assumption.
      * exists k. split; [|now split].
        destruct (Z.eq_dec k i) as [-> | Hne]; lia.
Qed.

(** X8.  The look-ahead of the tracking loop: [ok] is set exactly when the
    acquired sync byte shows at [posn + 80 k] for some [k] in [0 .. 127]
    with [posn + 80 k < limit2], be it at [posn] itself or not. *)
Theorem look_ahead_tolerance (src_buf : list Z) (past : Z -> Z)
    (posn limit2 sync : Z) :
  exists ok,
    Resync.look_ahead (Resync.lenient past) src_buf posn limit2 sync 128 0
      = Ok ok /\
    (ok = true <->
     exists k, 0 <= k < 128 /\ posn + k * 80 < limit2 /\
               SyncSpec.hard_byte (ResyncSpec.view src_buf past) (posn + k * 80)
               = sync).
Proof.
  destruct (look_ahead_reads (lenient past) src_buf (view src_buf past)
              posn limit2 sync 128 0 (reads_lenient src_buf past))
    as (ok & Hrun & Hiff).
  exists ok. split; [exact Hrun|]. rewrite Hiff.
  split; intros (k & Hk & H); exists k; (split; [lia | exact H]).
Qed.

(** *** A bounds-checked run against a lenient one *)

Lemma same_or_bind {A B : Type} L (a b : res A) (k k' : A -> res B) :
  same_or_overread L a b ->
  (forall x, same_or_overread L (k x) (k' x)) ->
  same_or_overread L (bind a k) (bind b k').
Proof.
  intros [-> | (i & -> & Hi)] Hk.
  - destruct b as [x | r i |]; cbn [bind]; [apply Hk | now left | now left].
  - right. now exists i.
Qed.

Lemma same_or_refl {A : Type} L (a : res A) : same_or_overread L a a.
Proof. now left. Qed.

Section Sim.

Variable L : Z.
Variables p q : ptr.
Hypothesis Hpq : forall i, same_or_overread L (p i) (q i).

Lemma same_or_add a : forall i, same_or_overread L ((p @+ a) i) ((q @+ a) i).
Proof. intros i. unfold ptr_add. apply Hpq. Qed.

Lemma Byte_loop_sim n : forall i result,
  same_or_overread L (Byte_loop p n i result) (Byte_loop q n i result).
Proof.
  induction n as [|n IH]; intros i result; cbn [Byte_loop];
    [apply same_or_refl|].
  apply same_or_bind; [apply Hpq | intros d; apply IH].
Qed.

Lemma memcpy_sim d n : forall dst k,
  same_or_overread L (memcpy dst d p n k) (memcpy dst d q n k).
Proof.
  induction n as [|n IH]; intros dst k; cbn [memcpy]; [apply same_or_refl|].
  apply same_or_bind; [apply Hpq | intros v].
  apply same_or_bind; [apply same_or_refl | intros dst'; apply IH].
Qed.

End Sim.

Section Sim2.

Variable L : Z.
Variables p q : ptr.
Hypothesis Hpq : forall i, same_or_overread L (p i) (q i).

Lemma Byte_at_Offset_sim a :
  same_or_overread L (Byte_at_Offset (p @+ a)) (Byte_at_Offset (q @+ a)).
Proof. apply Byte_loop_sim. now apply same_or_add. Qed.

Lemma Find_Sync_ahead_sim step i sync n : forall j,
  same_or_overread L (Find_Sync_ahead p step i sync n j)
    (Find_Sync_ahead q step i sync n j).
Proof.
  induction n as [|n IH]; intros j; cbn [Find_Sync_ahead];
    [apply same_or_refl|].
  apply same_or_bind; [apply Byte_at_Offset_sim | intros t].
  destruct (negb (sync =? t)); [apply same_or_refl | apply IH].
Qed.

Lemma Find_Sync_scan_sim step depth n : forall i sync,
  same_or_overread L (Find_Sync_scan p step depth n i sync)
    (Find_Sync_scan q step depth n i sync).
Proof.
  induction n as [|n IH]; intros i sync; cbn [Find_Sync_scan];
    [apply same_or_refl|].
  apply same_or_bind; [apply Byte_at_Offset_sim | intros s].
  apply same_or_bind; [apply Find_Sync_ahead_sim | intros b].
  destruct b; [apply same_or_refl | apply IH].
Qed.

End Sim2.

Section Sim3.

Variable src_buf : list Z.
Variable past : Z -> Z.
Let L := Z.of_nat (length src_buf).

Lemma src_at_sim i :
  same_or_overread L (src_at strict src_buf i) (src_at (lenient past) src_buf i).
Proof.
  unfold src_at, strict. destruct (in_bounds src_buf i) eqn:E; [now left|].
  right. exists i. split; [reflexivity|]. intros H.
  apply in_bounds_iff in H. congruence.
Qed.

Lemma look_ahead_sim posn limit2 sync n : forall i,
  same_or_overread L (look_ahead strict src_buf posn limit2 sync n i)
    (look_ahead (lenient past) src_buf posn limit2 sync n i).
Proof.
  induction n as [|n IH]; intros i; cbn [look_ahead]; [apply same_or_refl|].
  destruct (posn + i * INTLV_SYNCDATA <? limit2); [|apply IH].
  apply same_or_bind; [apply Byte_at_Offset_sim, src_at_sim | intros t].
  destruct (sync =? t); [apply same_or_refl | apply IH].
Qed.

Lemma track_sim limit2 sync fuel : forall raw_buf n posn,
  same_or_overread L (track strict fuel src_buf limit2 sync raw_buf n posn)
    (track (lenient past) fuel src_buf limit2 sync raw_buf n posn).
Proof.
  induction fuel as [|fuel IH]; intros raw_buf n posn; cbn [track];
    [apply same_or_refl|].
  destruct (posn <? limit2); [|apply same_or_refl].
  apply same_or_bind; [apply look_ahead_sim | intros ok].
  destruct (negb ok); [apply same_or_refl|].
  apply same_or_bind; [|intros raw'; apply IH].
  apply memcpy_sim. apply same_or_add. exact src_at_sim.
Qed.

Lemma acquire_sim inner limit1 limit2 fuel : forall raw_buf n posn sync,
  same_or_overread L
    (acquire strict fuel inner src_buf limit1 limit2 raw_buf n posn sync)
    (acquire (lenient past) fuel inner src_buf limit1 limit2 raw_buf n posn sync).
Proof.
  induction fuel as [|fuel IH]; intros raw_buf n posn sync; cbn [acquire];
    [apply same_or_refl|].
  destruct (posn <? limit1); [|apply same_or_refl].
  apply same_or_bind.
  - unfold Find_Sync. apply Find_Sync_scan_sim. apply same_or_add.
    exact src_at_sim.
  - intros [[found offset] sync'].
    destruct (negb found); [apply IH|].
    apply same_or_bind; [apply track_sim|].
    intros [[raw' n'] posn']. apply IH.
Qed.

End Sim3.

End TrackingFacts.

Module CleanFrames.
Import Sync SyncSpec SyncFacts Resync ResyncSpec ResyncFacts StrictRuns.
Import SyncMore ResyncMoreSpec ResyncMore.

Section Clean.

Variable overread : ptr.
Variable raw_buf : list Z.
Variable N : Z.

Let m : Z -> Z := fun i => nth (Z.to_nat i) raw_buf 0.

Hypothesis Hlen : Z.of_nat (length raw_buf) = 80 * N.
Hypothesis Hsync : forall k, 0 <= k < N -> hard_byte m (80 * k) = hard_byte m 0.

Lemma byte_at_frame k :
  0 <= k < N ->
  Byte_at_Offset (src_at overread raw_buf @+ (80 * k)) = Ok (hard_byte m 0).
Proof.
  intros Hk. rewrite Byte_at_Offset_in by lia. now rewrite Hsync.
Qed.

Lemma look_ahead_first posn limit2 sync n :
  posn < limit2 ->
  Byte_at_Offset (src_at overread raw_buf @+ posn) = Ok sync ->
  look_ahead overread raw_buf posn limit2 sync (S n) 0 = Ok true.
Proof.
  intros Hlt Hb. cbn [look_ahead]. unfold INTLV_SYNCDATA.
  replace (posn + 0 * 80) with posn by lia.
  destruct (Z.ltb_spec posn limit2); [|lia].
  rewrite Hb. cbn [bind]. now rewrite Z.eqb_refl.
Qed.

(** The search at the start of the buffer finds the train at offset 0. *)
Lemma Find_Sync_first sync0 :
  5 <= N ->
  Find_Sync (src_at overread raw_buf @+ 0) 400 80 4 sync0
  = Ok (true, 0, hard_byte m 0).
Proof.
  intros HN. unfold Find_Sync.
  change (Z.to_nat (400 - 80 * 4)) with (S 79). cbn [Find_Sync_scan].
  rewrite (Byte_at_Offset_ext _ (src_at overread raw_buf @+ (80 * 0)))
    by reflexivity.
  rewrite byte_at_frame by lia. cbn [bind].
  rewrite (Find_Sync_ahead_ext _ (total m) 80 0 (hard_byte m 0) (Z.to_nat 4) 1).
  2:{ intros k t Hk Ht. unfold ptr_add, total. apply src_at_in. lia. }
  destruct (Find_Sync_ahead_reads (total m) m 80 0 (hard_byte m 0)
              (Z.to_nat 4) 1 (reads_total m)) as (b & Hb & Hiff).
  rewrite Hb. cbn [bind].
  assert (b = true) as ->; [|reflexivity].
  apply Hiff. intros k Hk.
  replace (0 + k * 80) with (80 * k) by lia. apply Hsync. lia.
Qed.

(** The tracking loop over the frames that are left. *)
Lemma track_frames r : forall k cur fuel,
  k + Z.of_nat r = N - 1 -> 0 <= k -> (r < fuel)%nat ->
  length cur = length raw_buf ->
  exists cur',
    track overread fuel raw_buf (80 * N - 80) (hard_byte m 0)
      cur (72 * k) (80 * k) = Ok (cur', 72 * (N - 1), 80 * (N - 1)) /\
    length cur' = length raw_buf /\
    (forall i, 0 <= i < 72 * k ->
       nth (Z.to_nat i) cur' 0 = nth (Z.to_nat i) cur 0) /\
    (forall k' j, k <= k' < N - 1 -> 0 <= j < 72 ->
       nth (Z.to_nat (72 * k' + j)) cur' 0 = m (80 * k' + 8 + j)).
Proof.
  induction r as [|r IH]; intros k cur fuel Hk Hk0 Hfuel Hcur.
  - destruct fuel as [|fuel]; [lia|]. cbn [track].
    destruct (Z.ltb_spec (80 * k) (80 * N - 80)); [lia|].
    exists cur. replace k with (N - 1) by lia.
    split; [reflexivity|]. split; [exact Hcur|].
    split; [reflexivity | intros k' j Hk'; lia].
  - destruct fuel as [|fuel]; [lia|]. cbn [track].
    destruct (Z.ltb_spec (80 * k) (80 * N - 80)); [|lia].
    rewrite (look_ahead_first _ _ _ 127) by (try apply byte_at_frame; lia).
    cbn [bind negb]. unfold INTLV_DATA_LEN, INTLV_SYNCDATA.
    destruct (memcpy_in (src_at overread raw_buf @+ (80 * k + 8)) (72 * k)
                (Z.to_nat 72) cur 0) as (cur1 & Hcpy).
    { intros t Ht. unfold ptr_add. rewrite src_at_in by lia. eauto. }
    { lia. }
    { rewrite Hcur. lia. }
    rewrite Hcpy. cbn [bind].
    apply memcpy_inv in Hcpy as (Hlen1 & Hrd & Hsame); [|lia].
    replace (72 * k + 72) with (72 * (k + 1)) by lia.
    replace (80 * k + 80) with (80 * (k + 1)) by lia.
    destruct (IH (k + 1) cur1 fuel) as (cur' & Hrun & Hlen' & Hlow & Hhigh);
      try lia.
    exists cur'. split; [exact Hrun|]. split; [exact Hlen'|]. split.
    + intros i Hi. rewrite Hlow by lia. apply Hsame; lia.
    + intros k' j Hk' Hj. destruct (Z.eq_dec k' k) as [-> | Hne].
      * rewrite Hlow by lia.
        specialize (Hrd j ltac:(lia)). unfold ptr_add in Hrd.
        rewrite src_at_in in Hrd by lia. unfold m. congruence.
      * apply Hhigh; lia.
Qed.

Lemma Resync_Stream_clean :
  5 <= N ->
  exists raw_buf',
    Resync_Stream overread raw_buf = Ok (raw_buf', 72 * (N - 1)) /\
    forall k j, 0 <= k < N - 1 -> 0 <= j < 72 ->
      nth (Z.to_nat (72 * k + j)) raw_buf' 0
      = nth (Z.to_nat (80 * k + 8 + j)) raw_buf 0.
Proof.
  intros HN. unfold Resync_Stream, SYNCD_BUF_MARGIN, INTLV_SYNCDATA.
  rewrite Hlen. cbn [acquire].
  destruct (Z.ltb_spec 0 (80 * N - 320)); [|lia].
  unfold SYNCD_BLOCK_SIZ, INTLV_SYNCDATA, SYNCD_DEPTH.
  rewrite Find_Sync_first by exact HN. cbn [bind negb].
  destruct (track_frames (Z.to_nat (N - 1)) 0 raw_buf (S (length raw_buf)))
    as (cur' & Hrun & Hlen' & _ & Hhigh); try lia.
  replace (72 * 0) with 0 in Hrun by lia.
  replace (80 * 0) with 0 in Hrun by lia.
  replace (0 + 0) with 0 by lia. rewrite Hrun. cbn [bind].
  destruct (length raw_buf) as [|f] eqn:E; [lia|]. cbn [acquire].
  destruct (Z.ltb_spec (80 * (N - 1)) (80 * N - 320)); [lia|].
  exists cur'. split; [reflexivity|].
  intros k j Hk Hj. now apply Hhigh.
Qed.

End Clean.

(** X10.  A buffer of [N >= 5] whole frame periods whose 8-symbol slots
    all show the same hard-decision byte: [Resync_Stream] returns without
    reading outside the buffer, reports [72 * (N - 1)] symbols, and output
    symbol [72 k + j] is input symbol [80 k + 8 + j]: the data of every
    frame but the last, in order. *)
Theorem Resync_Stream_frame_data (overread : ptr) (raw_buf : list Z) (N : Z) :
  5 <= N ->
  Z.of_nat (length raw_buf) = 80 * N ->
  (forall k, 0 <= k < N ->
     SyncSpec.hard_byte (fun i => nth (Z.to_nat i) raw_buf 0) (80 * k)
     = SyncSpec.hard_byte (fun i => nth (Z.to_nat i) raw_buf 0) 0) ->
  exists raw_buf',
    Resync.Resync_Stream overread raw_buf = Ok (raw_buf', 72 * (N - 1)) /\
    forall k j, 0 <= k < N - 1 -> 0 <= j < 72 ->
      nth (Z.to_nat (72 * k + j)) raw_buf' 0
      = nth (Z.to_nat (80 * k + 8 + j)) raw_buf 0.
Proof.
  intros HN Hlen Hsync. now apply Resync_Stream_clean.
Qed.

Lemma Resync_Stream_frame_data_witness :
  exists raw_buf',
    Resync.Resync_Stream Resync.strict (Samples.frames 7 1)
      = Ok (raw_buf', 72 * (7 - 1)) /\
    forall k j, 0 <= k < 7 - 1 -> 0 <= j < 72 ->
      nth (Z.to_nat (72 * k + j)) raw_buf' 0
      = nth (Z.to_nat (80 * k + 8 + j)) (Samples.frames 7 1) 0.
Proof.
  apply (Resync_Stream_frame_data Resync.strict (Samples.frames 7 1) 7).
  - lia.
  - reflexivity.
  - intros k Hk.
    assert (k = 0 \/ k = 1 \/ k = 2 \/ k = 3 \/ k = 4 \/ k = 5 \/ k = 6)
      as [-> | [-> | [-> | [-> | [-> | [-> | ->]]]]]] by lia;
      vm_compute; reflexivity.
Defined.

End CleanFrames.

Module OverreadFacts.
Import Sync SyncSpec SyncFacts Resync ResyncSpec ResyncFacts StrictRuns.
Import SyncMore ResyncMoreSpec ResyncMore TrackingFacts.

(** *** The tracking loop stays inside the private copy *)

Lemma bind_ext {A B : Type} (m : res A) (k k' : A -> res B) :
  (forall a, k a = k' a) -> bind m k = bind m k'.
Proof. intros H. destruct m; cbn [bind]; [apply H | reflexivity..]. Qed.

Lemma memcpy_ext p q d n : forall dst k,
  (forall t, k <= t < k + Z.of_nat n -> p t = q t) ->
  memcpy dst d p n k = memcpy dst d q n k.
Proof.
  induction n as [|n IH]; intros dst k H; cbn [memcpy]; [reflexivity|].
  rewrite (H k) by lia. destruct (q k) as [v | |]; cbn [bind]; try reflexivity.
  destruct (store RawBuf dst (d + k) v) as [dst' | |]; cbn [bind];
    try reflexivity.
  apply IH. intros t Ht. apply H. lia.
Qed.

Section InBounds.

Variable src_buf : list Z.
Variable past : Z -> Z.

Lemma Byte_at_Offset_inside a :
  0 <= a -> a + 8 <= Z.of_nat (length src_buf) ->
  Byte_at_Offset (src_at strict src_buf @+ a)
  = Byte_at_Offset (src_at (lenient past) src_buf @+ a).
Proof.
  intros Ha Hroom. apply Byte_at_Offset_ext. intros k Hk.
  unfold ptr_add. now rewrite !src_at_in by lia.
Qed.

Lemma look_ahead_inside posn sync n : forall i,
  0 <= posn -> 0 <= i ->
  look_ahead strict src_buf posn (Z.of_nat (length src_buf) - 80) sync n i
  = look_ahead (lenient past) src_buf posn
      (Z.of_nat (length src_buf) - 80) sync n i.
Proof.
  induction n as [|n IH]; intros i Hposn Hi; cbn [look_ahead]; [reflexivity|].
  unfold INTLV_SYNCDATA.
  destruct (Z.ltb_spec (posn + i * 80) (Z.of_nat (length src_buf) - 80)).
  - rewrite Byte_at_Offset_inside by lia.
    destruct (Byte_at_Offset _) as [t | |]; cbn [bind]; try reflexivity.
    destruct (sync =? t); [reflexivity | apply IH; lia].
  - apply IH; lia.
Qed.

Lemma track_inside_buffer sync fuel : forall raw_buf resync_siz posn,
  0 <= posn ->
  track strict fuel src_buf (Z.of_nat (length src_buf) - 80) sync
    raw_buf resync_siz posn
  = track (lenient past) fuel src_buf (Z.of_nat (length src_buf) - 80) sync
      raw_buf resync_siz posn.
Proof.
  induction fuel as [|fuel IH]; intros raw_buf n posn Hposn; cbn [track];
    [reflexivity|].
  destruct (Z.ltb_spec posn (Z.of_nat (length src_buf) - 80)); [|reflexivity].
  rewrite look_ahead_inside by lia.
  apply bind_ext. intros ok. destruct (negb ok); [reflexivity|].
  unfold INTLV_DATA_LEN, INTLV_SYNCDATA.
  rewrite (memcpy_ext (src_at strict src_buf @+ (posn + 8))
             (src_at (lenient past) src_buf @+ (posn + 8))).
  2:{ intros t Ht. unfold ptr_add. now rewrite !src_at_in by lia. }
  apply bind_ext. intros raw'. apply IH. lia.
Qed.

End InBounds.

(** X20.  The tracking loop reads nothing outside the private copy: run
    with bounds checks it does what it does without them, whatever lies
    beyond the copy. *)
Theorem track_in_bounds (src_buf : list Z) (past : Z -> Z) (fuel : nat)
    (sync : Z) (raw_buf : list Z) (resync_siz posn : Z) :
  0 <= posn ->
  Resync.track Resync.strict fuel src_buf (Z.of_nat (length src_buf) - 80)
    sync raw_buf resync_siz posn
  = Resync.track (Resync.lenient past) fuel src_buf
      (Z.of_nat (length src_buf) - 80) sync raw_buf resync_siz posn.
Proof. apply track_inside_buffer. Qed.

Lemma track_in_bounds_witness :
  Resync.track Resync.strict 10 Samples.noise
    (Z.of_nat (length Samples.noise) - 80) 255 Samples.noise 0 3
  = Resync.track (Resync.lenient (fun _ => 0)) 10 Samples.noise
      (Z.of_nat (length Samples.noise) - 80) 255 Samples.noise 0 3.
Proof.
  apply (track_in_bounds Samples.noise (fun _ => 0) 10 255 Samples.noise 0 3).
  lia.
Defined.

(** *** Where a fault of [Find_Sync] comes from *)

Lemma Byte_loop_origin p r x n : forall i result,
  0 <= i -> i + Z.of_nat n <= 256 ->
  Byte_loop p n i result = Fault r x ->
  exists k, i <= k < i + Z.of_nat n /\ p k = Fault r x.
Proof.
  induction n as [|n IH]; intros i result Hi Hn H; cbn [Byte_loop] in H;
    [discriminate|].
  destruct (p i) as [d | r' x' |] eqn:E; cbn [bind] in H.
  - destruct n as [|n']; [discriminate|].
    rewrite (u8_small (i + 1)) in H by lia.
    apply IH in H as (k & Hk & Hp); try lia. exists k. split; [lia | exact Hp].
  - exists i. split; [lia|]. congruence.
  - discriminate.
Qed.

Lemma Byte_at_Offset_origin p r x :
  Byte_at_Offset p = Fault r x -> exists k, 0 <= k < 8 /\ p k = Fault r x.
Proof.
  intros H. apply Byte_loop_origin in H as (k & Hk & Hp); try lia.
  exists k. split; [lia | exact Hp].
Qed.

Lemma Find_Sync_ahead_origin p r x step i sync n : forall j,
  Find_Sync_ahead p step i sync n j = Fault r x ->
  exists k t, j <= k < j + Z.of_nat n /\ 0 <= t < 8 /\
              p (i + k * step + t) = Fault r x.
Proof.
  induction n as [|n IH]; intros j H; cbn [Find_Sync_ahead] in H;
    [discriminate|].
  destruct (Byte_at_Offset (p @+ (i + j * step))) as [b | r' x' |] eqn:E;
    cbn [bind] in H.
  - destruct (negb (sync =? b)); [discriminate|].
    apply IH in H as (k & t & Hk & Ht & Hp). exists k, t.
    split; [lia|]. now split.
  - injection H as -> ->. apply Byte_at_Offset_origin in E as (t & Ht & Hp).
    exists j, t. split; [lia|]. now split.
  - discriminate.
Qed.

Lemma Find_Sync_scan_origin p r x step depth n : forall i sync,
  Find_Sync_scan p step depth n i sync = Fault r x ->
  exists i' k t, i <= i' < i + Z.of_nat n /\ 0 <= k <= Z.max 0 depth /\
                 0 <= t < 8 /\ p (i' + k * step + t) = Fault r x.
Proof.
  induction n as [|n IH]; intros i sync H; cbn [Find_Sync_scan] in H;
    [discriminate|].
  destruct (Byte_at_Offset (p @+ i)) as [b | r' x' |] eqn:E; cbn [bind] in H.
  - destruct (Find_Sync_ahead p step i b (Z.to_nat depth) 1)
      as [ok | r' x' |] eqn:E'; cbn [bind] in H.
    + destruct ok; [discriminate|].
      apply IH in H as (i' & k & t & Hi' & Hk & Ht & Hp).
      exists i', k, t. split; [lia|]. now repeat split.
    + injection H as -> ->.
      apply Find_Sync_ahead_origin in E' as (k & t & Hk & Ht & Hp).
      exists i, k, t. split; [lia|]. split; [lia|]. now split.
    + discriminate.
  - injection H as -> ->. apply Byte_at_Offset_origin in E as (t & Ht & Hp).
    exists i, 0, t. split; [lia|]. split; [lia|]. split; [exact Ht|].
    unfold ptr_add in Hp. now replace (i + 0 * step + t) with (i + t) by lia.
  - discriminate.
Qed.

Lemma Find_Sync_strict_origin src_buf posn sync x r :
  0 <= posn ->
  Find_Sync (src_at strict src_buf @+ posn) 400 80 4 sync = Fault r x ->
  r = SrcBuf /\ Z.of_nat (length src_buf) <= x < posn + 407.
Proof.
  intros Hposn H. unfold Find_Sync in H.
  apply Find_Sync_scan_origin in H as (i' & k & t & Hi' & Hk & Ht & Hp).
  unfold ptr_add, src_at, strict in Hp.
  destruct (in_bounds src_buf (posn + (i' + k * 80 + t))) eqn:E;
    [discriminate|].
  injection Hp as <- <-. split; [reflexivity|].
  assert (~ 0 <= posn + (i' + k * 80 + t) < Z.of_nat (length src_buf)).
  { intros Hin. apply in_bounds_iff in Hin. congruence. }
  lia.
Qed.

Section Strict.

Variable src_buf : list Z.
Variable past : Z -> Z.
Let L := Z.of_nat (length src_buf).

Lemma acquire_strict inner fuel : forall raw_buf resync_siz posn sync,
  resync_inv L raw_buf resync_siz posn -> 0 <= posn ->
  L + 1 <= Z.of_nat inner ->
  acquire strict fuel inner src_buf (L - 320) (L - 80)
    raw_buf resync_siz posn sync
  = acquire (lenient past) fuel inner src_buf (L - 320) (L - 80)
      raw_buf resync_siz posn sync
  \/ exists x,
       acquire strict fuel inner src_buf (L - 320) (L - 80)
         raw_buf resync_siz posn sync = Fault SrcBuf x /\
       L <= x < L + 87.
Proof.
  induction fuel as [|fuel IH]; intros raw_buf n posn sync Hinv Hposn Hinner;
    cbn [acquire]; [now left|].
  destruct (Z.ltb_spec posn (L - 320)) as [Hlt | Hge]; [|now left].
  unfold SYNCD_BLOCK_SIZ, INTLV_SYNCDATA, SYNCD_DEPTH, SYNCD_BUF_STEP.
  destruct (Find_Sync_reads (src_at (lenient past) src_buf @+ posn)
              (fun k => view src_buf past (posn + k)) 400 80 4 sync
              (reads_add _ _ posn (reads_lenient src_buf past)))
    as (found & offset & sync' & Hfind & Htrue & _).
  destruct (Find_Sync (src_at strict src_buf @+ posn) 400 80 4 sync)
    as [res | r x |] eqn:Es.
  - assert (Hsame : Find_Sync (src_at (lenient past) src_buf @+ posn)
                      400 80 4 sync = Ok res).
    { unfold Find_Sync in *.
      exact (Find_Sync_scan_mono _ _
               (ptr_le_add _ _ _ (ptr_le_strict src_buf past))
               _ _ _ _ _ _ Es). }
    rewrite Hsame. rewrite Hfind in Hsame. injection Hsame as <-.
    cbn [bind]. destruct found; cbn [negb].
    + destruct (Htrue eq_refl) as (Hoff & _).
      fold L. rewrite (track_inside_buffer src_buf past) by lia. fold L.
      destruct Hinv as (Hlen & Hn & Hdiv & Hrate & Hp).
      destruct (track_ok (lenient past) src_buf (view src_buf past)
                  (reads_lenient src_buf past) L sync' inner raw_buf n
                  (posn + offset))
        as (raw' & n' & posn' & Hrun & Hinv' & Hle & _).
      { unfold resync_inv. repeat split; try assumption; try lia. }
      { lia. }
      { lia. }
      rewrite Hrun. cbn [bind]. apply IH; [exact Hinv' | lia | exact Hinner].
    + apply IH; [|lia | exact Hinner].
      destruct Hinv as (Hlen & Hn & Hdiv & Hrate & Hp).
      unfold resync_inv. repeat split; try assumption; try lia.
  - right. cbn [bind].
    apply Find_Sync_strict_origin in Es as (-> & Hx); [|exact Hposn].
    exists x. split; [reflexivity|]. fold L in Hx. lia.
  - exfalso. unfold Find_Sync in Es.
    pose proof (Find_Sync_scan_sim L _ _
                  (same_or_add L _ _ (src_at_sim src_buf past) posn)
                  80 4 (Z.to_nat (400 - 80 * 4)) 0 sync) as [H | (i & H & _)].
    + unfold Find_Sync in Hfind. rewrite Es, Hfind in H. discriminate.
    + rewrite Es in H. discriminate.
Qed.

End Strict.

(** X9.  How a bounds-checked [Resync_Stream] can end: it returns, with
    what every lenient run returns, or it stops on a read of the private
    copy at most 86 symbols past its end.  It never stores outside
    [raw_buf] and never runs out of fuel. *)
Theorem Resync_Stream_strict_outcome (raw_buf : list Z) :
  (exists raw_buf' resync_siz,
     Resync.Resync_Stream Resync.strict raw_buf = Ok (raw_buf', resync_siz) /\
     forall past,
       Resync.Resync_Stream (Resync.lenient past) raw_buf
       = Ok (raw_buf', resync_siz)) \/
  (exists x,
     Resync.Resync_Stream Resync.strict raw_buf = Fault SrcBuf x /\
     Z.of_nat (length raw_buf) <= x < Z.of_nat (length raw_buf) + 87).
Proof.
  destruct (Resync_Stream_lenient raw_buf (fun _ => 0))
    as (raw' & n & Hrun & _).
  unfold Resync_Stream, SYNCD_BUF_MARGIN, INTLV_SYNCDATA in *.
  destruct (acquire_strict raw_buf (fun _ => 0) (S (length raw_buf))
              (S (length raw_buf)) raw_buf 0 0 0) as [H | (x & H & Hx)].
  - unfold resync_inv. repeat split; try lia. exists 0. lia.
  - lia.
  - lia.
  - left. exists raw', n. rewrite Hrun in H. split; [exact H|].
    intros past. exact (Resync_Stream_strict raw_buf _ H past).
  - right. exists x. split; [exact H | exact Hx].
Qed.

End OverreadFacts.

Module DeinterleaveMore.
Import Sync SyncSpec SyncFacts Resync ResyncSpec ResyncFacts StrictRuns.
Import DeinterleaveFacts.



(** X12.  Which output symbols [De_Interleave] fills: every index that is a
    multiple of 36 gets the resynchronized symbol of the same index; an
    index that is not, within 73728 of the end, is never stored to.  So a
    resynchronized buffer of at most 73728 symbols is copied at every 36th
    symbol only. *)
Theorem De_Interleave_every_36th (overread : ptr) (mem_alloc : Z -> list Z)
    (raw resync0 raw' : list Z) (resync_siz : Z) :
  (forall n, 0 <= n -> length (mem_alloc n) = Z.to_nat n) ->
  Resync.Resync_Stream overread raw = Ok (raw', resync_siz) ->
  exists out,
    Resync.De_Interleave overread mem_alloc raw resync0 = Ok out /\
    forall i, 0 <= i < resync_siz ->
      (i mod 36 = 0 ->
       nth (Z.to_nat i) (out_resync out) 0 = nth (Z.to_nat i) raw' 0) /\
      (i mod 36 <> 0 -> resync_siz <= i + 73728 ->
       nth (Z.to_nat i) (out_resync out) 0
       = nth (Z.to_nat i) (mem_alloc resync_siz) 0 /\
       ~ In i (out_written out)).
Proof.
  intros Halloc Hrun.
  destruct (Resync_Stream_any_length _ _ _ _ Hrun) as (Hlen & _ & Hsmall).
  unfold De_Interleave. rewrite Hrun. cbn [bind].
  destruct Hsmall as [-> | Hn].
  - cbn. eexists. split; [reflexivity|]. intros i Hi. lia.
  - destruct (Z.eqb_spec resync_siz 0) as [? | _]; [lia|].
    destruct (Z.ltb_spec resync_siz (Z.of_nat (length raw))) as [_ | ?]; [|lia].
    cbn [negb andb].
    destruct (deinterleave_spec raw' resync_siz (Z.to_nat resync_siz) 0
                (mem_alloc resync_siz) [])
      as (cur' & w' & Hloop & _ & _ & Hhigh & Hw).
    { lia. }
    { lia. }
    { rewrite Halloc by lia. lia. }
    { rewrite Hlen. lia. }
    rewrite Hloop. cbn [bind]. eexists. split; [reflexivity|].
    cbn [out_resync out_written]. intros i Hi.
    destruct (Hhigh i Hi) as (Hin & Hout). unfold source_index in *.
    pose proof (Z.mod_pos_bound i 36 ltac:(lia)) as Hmod.
    split.
    + intros E. rewrite E in Hin. rewrite Hin by lia. f_equal. lia.
    + intros E Hend. assert (Hge : resync_siz <= i + i mod 36 * 73728) by nia.
      split; [exact (Hout Hge)|].
      intros Hi'. destruct (Hw i Hi') as [[] | H]. lia.
Qed.

Lemma De_Interleave_every_36th_witness :
  exists out,
    Resync.De_Interleave Resync.strict (fun n => repeat 0 (Z.to_nat n))
      (Samples.frames 7 1) [] = Ok out /\
    forall i, 0 <= i < 432 ->
      (i mod 36 = 0 ->
       nth (Z.to_nat i) (out_resync out) 0
       = nth (Z.to_nat i) Samples.frames_resynced 0) /\
      (i mod 36 <> 0 -> 432 <= i + 73728 ->
       nth (Z.to_nat i) (out_resync out) 0
       = nth (Z.to_nat i) ((fun n => repeat 0 (Z.to_nat n)) 432) 0 /\
       ~ In i (out_written out)).
Proof.
  apply (De_Interleave_every_36th Resync.strict
           (fun n => repeat 0 (Z.to_nat n)) (Samples.frames 7 1) []
           Samples.frames_resynced 432).
  - intros n _. apply repeat_length.
  - vm_compute. reflexivity.
Defined.

End DeinterleaveMore.

Module SqrtTableMore.
Import SqrtTable SqrtTableFacts.

(** X13.  The table [Make_Isqrt_Table] builds with [sqrt] on doubles has
    16385 entries, and entry [i] is the integer square root of [i], at most
    128. *)
Theorem Make_Isqrt_Table_entries :
  Z.of_nat (length SqrtTable.Make_Isqrt_Table) = 16385 /\
  forall i, 0 <= i <= 16384 ->
    nth (Z.to_nat i) SqrtTable.Make_Isqrt_Table 0 = Z.sqrt i /\
    Z.sqrt i * Z.sqrt i <= i < (Z.sqrt i + 1) * (Z.sqrt i + 1) /\
    0 <= Z.sqrt i <= 128.
Proof.
  split.
  - exact table_length.
  - intros i Hi. split; [now apply table_nth|].
    split; [apply Z.sqrt_spec; lia | now apply sqrt_le_128].
Qed.

(** X14.  Below 16384 in absolute value, and at -16384, [Isqrt] returns the
    integer square root with the sign of its argument. *)
Theorem Isqrt_signed (a : Z) :
  -16384 <= a < 16384 ->
  exists r,
    SqrtTable.Isqrt SqrtTable.Make_Isqrt_Table a = Ok r /\
    r = SqrtTable.signed_sqrt a /\
    r * r <= Z.abs a < (Z.abs r + 1) * (Z.abs r + 1) /\
    (0 < a -> 0 < r) /\ (a < 0 -> r < 0) /\ (a = 0 -> r = 0).
Proof.
  intros Ha. exists (signed_sqrt a). split; [now apply Isqrt_small|].
  split; [reflexivity|]. unfold signed_sqrt.
  destruct (Z.geb_spec a 0) as [Hpos | Hneg].
  - pose proof (Z.sqrt_spec a ltac:(lia)) as Hs. cbv zeta in Hs.
    pose proof (Z.sqrt_nonneg a).
    assert (0 < a -> 0 < Z.sqrt a) by (intros; apply Z.sqrt_pos; lia).
    rewrite (Z.abs_eq a), (Z.abs_eq (Z.sqrt a)) by lia.
    split; [lia|]. split; [lia|]. split; [lia|].
    intros E. rewrite E. reflexivity.
  - pose proof (Z.sqrt_spec (- a) ltac:(lia)) as Hs. cbv zeta in Hs.
    assert (0 < Z.sqrt (- a)) by (apply Z.sqrt_pos; lia).
    rewrite (Z.abs_neq a), Z.abs_opp, (Z.abs_eq (Z.sqrt (- a))) by lia.
    split; [lia|]. split; [lia|]. split; lia.
Qed.

Lemma Isqrt_signed_witness :
  exists r,
    SqrtTable.Isqrt SqrtTable.Make_Isqrt_Table (-9) = Ok r /\
    r = SqrtTable.signed_sqrt (-9) /\
    r * r <= Z.abs (-9) < (Z.abs r + 1) * (Z.abs r + 1) /\
    (0 < -9 -> 0 < r) /\ (-9 < 0 -> r < 0) /\ (-9 = 0 -> r = 0).
Proof. apply (Isqrt_signed (-9)). lia. Defined.

Lemma signed_sqrt_mono a b : a <= b -> signed_sqrt a <= signed_sqrt b.
Proof.
  intros Hab. unfold signed_sqrt.
  destruct (Z.geb_spec a 0), (Z.geb_spec b 0); try lia.
  - now apply Z.sqrt_le_mono.
  - pose proof (Z.sqrt_nonneg (- a)). pose proof (Z.sqrt_nonneg b). lia.
  - assert (Z.sqrt (- b) <= Z.sqrt (- a)) by (apply Z.sqrt_le_mono; lia). lia.
Qed.

(** X15.  On [-16384 .. 16383] [Isqrt] is monotone, and odd wherever both
    [a] and [-a] lie there. *)
Theorem Isqrt_monotone_odd (a b : Z) :
  -16384 <= a -> a <= b -> b < 16384 ->
  exists ra rb,
    SqrtTable.Isqrt SqrtTable.Make_Isqrt_Table a = Ok ra /\
    SqrtTable.Isqrt SqrtTable.Make_Isqrt_Table b = Ok rb /\
    ra <= rb /\
    (-16384 < a ->
     SqrtTable.Isqrt SqrtTable.Make_Isqrt_Table (- a) = Ok (- ra)).
Proof.
  intros Ha Hab Hb. exists (signed_sqrt a), (signed_sqrt b).
  split; [apply Isqrt_small; lia|]. split; [apply Isqrt_small; lia|].
  split; [now apply signed_sqrt_mono|].
  intros Ha'. rewrite Isqrt_small by lia. f_equal. unfold signed_sqrt.
  destruct (Z.geb_spec a 0), (Z.geb_spec (- a) 0); try lia.
  - assert (a = 0) as -> by lia. reflexivity.
  - now rewrite Z.opp_involutive.
Qed.

Lemma Isqrt_monotone_odd_witness :
  exists ra rb,
    SqrtTable.Isqrt SqrtTable.Make_Isqrt_Table (-640) = Ok ra /\
    SqrtTable.Isqrt SqrtTable.Make_Isqrt_Table 16256 = Ok rb /\
    ra <= rb /\
    (-16384 < -640 ->
     SqrtTable.Isqrt SqrtTable.Make_Isqrt_Table (- -640) = Ok (- ra)).
Proof. apply (Isqrt_monotone_odd (-640) 16256); lia. Defined.

End SqrtTableMore.

Module DiffcodeMore.
Import SqrtTable SqrtTableFacts Diffcode DiffcodeSpec DiffcodeFacts.
Import DiffcodeClaims TableSafety Samples.

(** X16.  [De_Diffcode] on the [length rest] symbols at [buff = &buf[base]]
    changes nothing before [base] and nothing from [base + length] on, and
    keeps the length of what it decodes. *)
Theorem De_Diffcode_frame (pre rest post : list Z) (prev_i prev_q : Z) :
  Forall is_s8 rest -> is_s8 prev_i -> is_s8 prev_q ->
  (2 <= length rest)%nat -> Nat.even (length rest) = true ->
  Z.of_nat (length rest) < 4294967296 ->
  exists out carried,
    Diffcode.De_Diffcode SqrtTable.Make_Isqrt_Table (pre ++ rest ++ post)
      (Z.of_nat (length pre)) (Z.of_nat (length rest)) (prev_i, prev_q)
    = Ok (pre ++ out ++ post, carried) /\
    length out = length rest.
Proof.
  intros Hs8 H1 H2 Hlen Heven Hmax.
  destruct (even_length_half rest Heven Hlen) as (n & Hn).
  exists (decode_pairs prev_i prev_q rest), (last_pair prev_i prev_q rest).
  split; [now apply (De_Diffcode_pairs_at n)|].
  now apply (length_decode_pairs (S n)).
Qed.

Lemma De_Diffcode_frame_witness :
  exists out carried,
    Diffcode.De_Diffcode SqrtTable.Make_Isqrt_Table
      ([100; 101] ++ sample ++ [102])
      (Z.of_nat (length [100; 101])) (Z.of_nat (length sample)) (3, -128)
    = Ok ([100; 101] ++ out ++ [102], carried) /\
    length out = length sample.
Proof.
  apply (De_Diffcode_frame [100; 101] sample [102] 3 (-128)).
  - exact sample_s8.
  - unfold is_s8; lia.
  - unfold is_s8; lia.
  - cbn; lia.
  - reflexivity.
  - cbn; lia.
Defined.

(** *** The buffer and the carried pair stay 8-bit *)

Lemma length_store r buf i v buf' :
  store r buf i v = Ok buf' -> length buf' = length buf.
Proof.
  unfold store. destruct (in_bounds buf i); [|discriminate].
  intros [= <-]. apply length_upd.
Qed.

Lemma decode_loop_s8 fuel : forall buf base bound idx tmp1 tmp2 buf' t1 t2,
  decode_loop Make_Isqrt_Table fuel buf base bound idx tmp1 tmp2
    = Ok (buf', t1, t2) ->
  Forall is_s8 buf -> is_s8 tmp1 -> is_s8 tmp2 ->
  Forall is_s8 buf' /\ is_s8 t1 /\ is_s8 t2 /\ length buf' = length buf.
Proof.
  induction fuel as [|fuel IH];
    intros buf base bound idx tmp1 tmp2 buf' t1 t2 H Hs8 H1 H2;
    cbn [decode_loop] in H; [discriminate|].
  destruct (idx <=? bound).
  2:{ injection H as <- <- <-.
      split; [assumption|]. split; [assumption|]. split; [assumption|].
      reflexivity. }
  apply bind_inv in H as (x & Hx & H).
  apply bind_inv in H as (y & Hy & H).
  apply bind_inv in H as (b0 & Hb0 & H).
  pose proof (load_s8 _ _ _ Hs8 Hx) as Sx.
  pose proof (load_s8 _ _ _ Hs8 Hy) as Sy.
  pose proof (load_s8 _ _ _ Hs8 Hb0) as Sb0.
  apply bind_inv in H as (r0 & Hr0 & H).
  apply Isqrt_inv in Hr0; [|now apply product_range].
  apply bind_inv in H as (buf1 & Hbuf1 & H).
  pose proof (store_s8 _ _ _ _ Hs8 Hr0 Hbuf1) as Hs81.
  apply bind_inv in H as (b1 & Hb1 & H).
  pose proof (load_s8 _ _ _ Hs81 Hb1) as Sb1.
  apply bind_inv in H as (r1 & Hr1 & H).
  apply Isqrt_inv in Hr1; [|now apply product_range_neg].
  apply bind_inv in H as (buf2 & Hbuf2 & H).
  pose proof (store_s8 _ _ _ _ Hs81 Hr1 Hbuf2) as Hs82.
  apply IH in H as (Hb' & Ht1 & Ht2 & Hlen); try assumption.
  split; [assumption|]. split; [assumption|]. split; [assumption|].
  rewrite Hlen, (length_store _ _ _ _ _ Hbuf2). now apply length_store in Hbuf1.
Qed.

(** X17.  Whatever position and length it is given, a call of
    [De_Diffcode] that returns leaves a buffer of the same length whose
    symbols are 8-bit signed values, and a carried pair of 8-bit signed
    values: what the next call needs. *)
Theorem De_Diffcode_keeps_s8 (buf : list Z) (base length : Z)
    (prev_i prev_q : Z) (buf' : list Z) (carried : Z * Z) :
  Forall is_s8 buf -> is_s8 prev_i -> is_s8 prev_q ->
  Diffcode.De_Diffcode SqrtTable.Make_Isqrt_Table buf base length
    (prev_i, prev_q) = Ok (buf', carried) ->
  Forall is_s8 buf' /\ is_s8 (fst carried) /\ is_s8 (snd carried) /\
  List.length buf' = List.length buf.
Proof.
  intros Hs8 H1 H2 H. unfold De_Diffcode in H.
  apply bind_inv in H as (tmp1 & Ht1 & H).
  apply bind_inv in H as (tmp2 & Ht2 & H).
  apply bind_inv in H as (b0 & Hb0 & H).
  pose proof (load_s8 _ _ _ Hs8 Ht1) as St1.
  pose proof (load_s8 _ _ _ Hs8 Ht2) as St2.
  pose proof (load_s8 _ _ _ Hs8 Hb0) as Sb0.
  apply bind_inv in H as (r0 & Hr0 & H).
  apply Isqrt_inv in Hr0; [|now apply product_range].
  apply bind_inv in H as (buf1 & Hbuf1 & H).
  pose proof (store_s8 _ _ _ _ Hs8 Hr0 Hbuf1) as Hs81.
  apply bind_inv in H as (b1 & Hb1 & H).
  pose proof (load_s8 _ _ _ Hs81 Hb1) as Sb1.
  apply bind_inv in H as (r1 & Hr1 & H).
  apply Isqrt_inv in Hr1; [|now apply product_range_neg].
  apply bind_inv in H as (buf2 & Hbuf2 & H).
  pose proof (store_s8 _ _ _ _ Hs81 Hr1 Hbuf2) as Hs82.
  apply bind_inv in H as ([[buf3 t1] t2] & Hloop & H).
  injection H as <- <-.
  apply decode_loop_s8 in Hloop as (Hb' & Ht1' & Ht2' & Hlen); try assumption.
  cbn [fst snd].
  split; [assumption|]. split; [assumption|]. split; [assumption|].
  rewrite Hlen, (length_store _ _ _ _ _ Hbuf2). now apply length_store in Hbuf1.
Qed.

Lemma De_Diffcode_keeps_s8_witness :
  Forall is_s8 [0; 0; -25; -29; -128; 127] /\ is_s8 (fst (-128, 127)) /\
  is_s8 (snd (-128, 127)) /\
  List.length [0; 0; -25; -29; -128; 127] = List.length sample.
Proof.
  apply (De_Diffcode_keeps_s8 sample 0 6 0 0 [0; 0; -25; -29; -128; 127]
           (-128, 127)).
  - exact sample_s8.
  - unfold is_s8; lia.
  - unfold is_s8; lia.
  - exact De_Diffcode_sample.
Defined.

(** *** Lengths the caller should not pass *)

Lemma decode_loop_odd_bound fuel : forall buf base bound idx tmp1 tmp2,
  Z.even idx = true -> Z.even bound = true ->
  decode_loop Make_Isqrt_Table fuel buf base (bound + 1) idx tmp1 tmp2
  = decode_loop Make_Isqrt_Table fuel buf base bound idx tmp1 tmp2.
Proof.
  induction fuel as [|fuel IH]; intros buf base bound idx tmp1 tmp2 Hi Hb;
    cbn [decode_loop]; [reflexivity|].
  assert (Hguard : (idx <=? bound + 1) = (idx <=? bound)).
  { apply Z.even_spec in Hi. apply Z.even_spec in Hb.
    destruct Hi as (x & ->). destruct Hb as (y & ->).
    destruct (Z.leb_spec (2 * x) (2 * y + 1)), (Z.leb_spec (2 * x) (2 * y));
      lia. }
  rewrite Hguard. destruct (idx <=? bound); [|reflexivity].
  assert (Hnext : Z.even (u32 (idx + 2)) = true).
  { unfold u32. change 4294967296 with (2 ^ 32).
    rewrite <- Z.negb_odd, <- Z.bit0_odd, Z.mod_pow2_bits_low by lia.
    rewrite Z.bit0_odd, Z.negb_odd, Z.even_add, Hi. reflexivity. }
  destruct (load SymBuf buf (base + idx)) as [x | |]; cbn [bind];
    try reflexivity.
  destruct (load SymBuf buf (base + u32 (idx + 1))) as [y | |]; cbn [bind];
    try reflexivity.
  destruct (Isqrt Make_Isqrt_Table (x * tmp1)) as [r0 | |]; cbn [bind];
    try reflexivity.
  destruct (store SymBuf buf (base + idx) r0) as [buf1 | |]; cbn [bind];
    try reflexivity.
  destruct (load SymBuf buf1 (base + u32 (idx + 1))) as [b1 | |]; cbn [bind];
    try reflexivity.
  destruct (Isqrt Make_Isqrt_Table (- b1 * tmp2)) as [r1 | |]; cbn [bind];
    try reflexivity.
  destruct (store SymBuf buf1 (base + u32 (idx + 1)) r1) as [buf2 | |];
    cbn [bind]; try reflexivity.
  now apply IH.
Qed.

(** X18.  With an odd length, [De_Diffcode] decodes the pairs before the
    last symbol and leaves that symbol as it is: it is neither decoded nor
    carried. *)
Theorem De_Diffcode_odd_length (pre rest post : list Z) (x : Z)
    (prev_i prev_q : Z) :
  Forall is_s8 rest -> is_s8 prev_i -> is_s8 prev_q ->
  (2 <= length rest)%nat -> Nat.even (length rest) = true ->
  Z.of_nat (length rest) + 1 < 4294967296 ->
  Diffcode.De_Diffcode SqrtTable.Make_Isqrt_Table (pre ++ rest ++ x :: post)
    (Z.of_nat (length pre)) (Z.of_nat (length rest) + 1) (prev_i, prev_q)
  = Diffcode.De_Diffcode SqrtTable.Make_Isqrt_Table (pre ++ rest ++ x :: post)
      (Z.of_nat (length pre)) (Z.of_nat (length rest)) (prev_i, prev_q)
  /\ exists out,
       Diffcode.De_Diffcode SqrtTable.Make_Isqrt_Table
         (pre ++ rest ++ x :: post)
         (Z.of_nat (length pre)) (Z.of_nat (length rest) + 1) (prev_i, prev_q)
       = Ok (pre ++ out ++ x :: post,
             (nth (length rest - 2) rest 0, nth (length rest - 1) rest 0)) /\
       length out = length rest.
Proof.
  intros Hs8 H1 H2 Hlen Heven Hmax.
  destruct (even_length_half rest Heven Hlen) as (n & Hn).
  pose proof (De_Diffcode_pairs_at n rest pre (x :: post) prev_i prev_q
                Hn Hs8 H1 H2 ltac:(lia)) as Hrun.
  destruct rest as [|a [|b rest]]; try (cbn in Hn; lia).
  inversion Hs8 as [|? ? Ha Hs8']; subst.
  inversion Hs8' as [|? ? Hb Hrest]; subst.
  cbn [length] in *.
  assert (Hodd :
    De_Diffcode Make_Isqrt_Table (pre ++ (a :: b :: rest) ++ x :: post)
      (Z.of_nat (length pre)) (Z.of_nat (S (S (length rest))) + 1)
      (prev_i, prev_q)
    = Ok (pre ++ decode_pairs prev_i prev_q (a :: b :: rest) ++ x :: post,
          last_pair prev_i prev_q (a :: b :: rest))).
  { unfold De_Diffcode. cbn [app].
    rewrite load_app by lia. cbn [bind].
    rewrite load_app1 by lia. cbn [bind].
    rewrite Isqrt_isq by now apply product_range. cbn [bind].
    rewrite store_app by lia. cbn [bind].
    rewrite load_app1 by lia. cbn [bind].
    rewrite Isqrt_isq by now apply product_range_neg. cbn [bind].
    rewrite store_app1 by lia. cbn [bind].
    rewrite u32_small by lia.
    replace (Z.of_nat (S (S (length rest))) + 1 - 2)
      with (Z.of_nat (length rest) + 1) by lia.
    rewrite decode_loop_odd_bound;
      [| reflexivity
       | replace (length rest) with (2 * n)%nat by lia;
         rewrite Nat2Z.inj_mul; apply Z.even_mul ].
    change (pre ++ isq (a * prev_i) :: isq (- b * prev_q) :: rest ++ x :: post)
      with (pre ++ [isq (a * prev_i); isq (- b * prev_q)]
                ++ rest ++ x :: post).
    rewrite app_assoc.
    rewrite (decode_loop_pairs n rest); try assumption; try lia.
    - cbn [bind decode_pairs last_pair]. rewrite <- app_assoc.
      now destruct (last_pair a b rest).
    - rewrite length_app. cbn [length]. lia. }
  split; [now rewrite Hodd, Hrun|].
  exists (decode_pairs prev_i prev_q (a :: b :: rest)).
  rewrite Hodd. split.
  - f_equal. f_equal.
    rewrite (last_pair_nth n (a :: b :: rest)) by exact Hn. reflexivity.
  - now apply (length_decode_pairs (S n)).
Qed.

Lemma De_Diffcode_odd_length_witness :
  Diffcode.De_Diffcode SqrtTable.Make_Isqrt_Table ([100] ++ sample ++ 9 :: [])
    (Z.of_nat (length [100])) (Z.of_nat (length sample) + 1) (3, -128)
  = Diffcode.De_Diffcode SqrtTable.Make_Isqrt_Table
      ([100] ++ sample ++ 9 :: [])
      (Z.of_nat (length [100])) (Z.of_nat (length sample)) (3, -128)
  /\ exists out,
       Diffcode.De_Diffcode SqrtTable.Make_Isqrt_Table
         ([100] ++ sample ++ 9 :: [])
         (Z.of_nat (length [100])) (Z.of_nat (length sample) + 1) (3, -128)
       = Ok ([100] ++ out ++ 9 :: [],
             (nth (length sample - 2) sample 0,
              nth (length sample - 1) sample 0)) /\
       length out = length sample.
Proof.
  apply (De_Diffcode_odd_length [100] sample [] 9 3 (-128)).
  - exact sample_s8.
  - unfold is_s8; lia.
  - unfold is_s8; lia.
  - cbn; lia.
  - reflexivity.
  - cbn; lia.
Defined.

End DiffcodeMore.

Module DiffcodeOverrun.
Import SqrtTable SqrtTableFacts Diffcode DiffcodeSpec DiffcodeFacts.
Import DiffcodeClaims TableSafety Samples.

(** With a bound it never reaches, the loop decodes to the end of the
    buffer and stops on the read after it. *)
Lemma decode_loop_overrun n : forall rest pre base bound idx tmp1 tmp2 fuel,
  length rest = (2 * n)%nat -> Forall is_s8 rest ->
  is_s8 tmp1 -> is_s8 tmp2 ->
  base + idx = Z.of_nat (length pre) -> 0 <= idx ->
  idx + Z.of_nat (length rest) <= bound ->
  idx + Z.of_nat (length rest) < 4294967296 ->
  (n < fuel)%nat ->
  decode_loop Make_Isqrt_Table fuel (pre ++ rest) base bound idx tmp1 tmp2
  = Fault SymBuf (base + idx + Z.of_nat (length rest)).
Proof.
  induction n as [|n IH];
    intros rest pre base bound idx tmp1 tmp2 fuel
           Hlen Hs8 H1 H2 Hbase Hidx Hbound Hmax Hfuel.
  - destruct rest; [|cbn in Hlen; lia]. destruct fuel as [|fuel]; [lia|].
    cbn [decode_loop]. cbn [length] in *.
    destruct (Z.leb_spec idx bound); [|lia].
    rewrite app_nil_r. rewrite load_fault by lia. cbn [bind].
    f_equal. lia.
  - destruct rest as [|a [|b rest]]; try (cbn in Hlen; lia).
    destruct fuel as [|fuel]; [lia|]. cbn [decode_loop].
    cbn [length] in *.
    destruct (Z.leb_spec idx bound); [|lia].
    inversion Hs8 as [|? ? Ha Hs8']; subst.
    inversion Hs8' as [|? ? Hb Hrest]; subst.
    rewrite !u32_small by lia.
    rewrite load_app by lia. cbn [bind].
    rewrite load_app1 by lia. cbn [bind].
    rewrite Isqrt_isq by now apply product_range. cbn [bind].
    rewrite store_app by lia. cbn [bind].
    rewrite load_app1 by lia. cbn [bind].
    rewrite Isqrt_isq by now apply product_range_neg. cbn [bind].
    rewrite store_app1 by lia. cbn [bind].
    change (pre ++ isq (a * tmp1) :: isq (- b * tmp2) :: rest)
      with (pre ++ [isq (a * tmp1); isq (- b * tmp2)] ++ rest).
    rewrite app_assoc.
    rewrite (IH rest (pre ++ [isq (a * tmp1); isq (- b * tmp2)])
               base bound (idx + 2) a b fuel); try assumption; try lia.
    + f_equal. lia.
    + rewrite length_app. cbn [length]. lia.
Qed.

Lemma De_Diffcode_overrun_at n pre rest length prev_i prev_q :
  List.length rest = (2 * S n)%nat -> Forall is_s8 rest ->
  is_s8 prev_i -> is_s8 prev_q ->
  Z.of_nat (List.length rest) < 4294967294 ->
  0 <= length < 2 ->
  De_Diffcode Make_Isqrt_Table (pre ++ rest) (Z.of_nat (List.length pre))
    length (prev_i, prev_q)
  = Fault SymBuf (Z.of_nat (List.length pre) + Z.of_nat (List.length rest)).
Proof.
  intros Hn Hs8 H1 H2 Hmax Hshort.
  destruct rest as [|a [|b rest]]; try (cbn in Hn; lia).
  inversion Hs8 as [|? ? Ha Hs8']; subst.
  inversion Hs8' as [|? ? Hb Hrest]; subst.
  cbn [List.length] in *.
  assert (Hbound : 4294967294 <= u32 (length - 2) < 4294967296).
  { assert (length = 0 \/ length = 1) as [-> | ->] by lia;
      vm_compute; split; congruence. }
  unfold De_Diffcode.
  rewrite load_app by lia. cbn [bind].
  rewrite load_app1 by lia. cbn [bind].
  rewrite Isqrt_isq by now apply product_range. cbn [bind].
  rewrite store_app by lia. cbn [bind].
  rewrite load_app1 by lia. cbn [bind].
  rewrite Isqrt_isq by now apply product_range_neg. cbn [bind].
  rewrite store_app1 by lia. cbn [bind].
  change (pre ++ isq (a * prev_i) :: isq (- b * prev_q) :: rest)
    with (pre ++ [isq (a * prev_i); isq (- b * prev_q)] ++ rest).
  rewrite app_assoc.
  rewrite (decode_loop_overrun n rest); try assumption; try lia.
  - cbn [bind]. f_equal. lia.
  - rewrite length_app. cbn [List.length]. lia.
Qed.

(** X19.  A length below 2 wraps around in [length -= 2]: the loop then
    decodes the whole buffer, whatever the length said, and reads past its
    end. *)
Theorem De_Diffcode_short_length (buff : list Z) (length prev_i prev_q : Z) :
  Forall is_s8 buff -> is_s8 prev_i -> is_s8 prev_q ->
  (2 <= List.length buff)%nat -> Nat.even (List.length buff) = true ->
  Z.of_nat (List.length buff) < 4294967294 ->
  0 <= length < 2 ->
  Diffcode.De_Diffcode SqrtTable.Make_Isqrt_Table buff 0 length
    (prev_i, prev_q)
  = Fault SymBuf (Z.of_nat (List.length buff)).
Proof.
  intros Hs8 H1 H2 Hlen Heven Hmax Hshort.
  destruct (even_length_half buff Heven Hlen) as (n & Hn).
  exact (De_Diffcode_overrun_at n [] buff length prev_i prev_q
           Hn Hs8 H1 H2 Hmax Hshort).
Qed.

Lemma De_Diffcode_short_length_witness :
  Diffcode.De_Diffcode SqrtTable.Make_Isqrt_Table sample 0 1 (0, 0)
  = Fault SymBuf (Z.of_nat (List.length sample)).
Proof.
  apply (De_Diffcode_short_length sample 1 0 0).
  - exact sample_s8.
  - unfold is_s8; lia.
  - unfold is_s8; lia.
  - cbn; lia.
  - reflexivity.
  - cbn; lia.
  - lia.
Defined.

End DiffcodeOverrun.
